(** * gdns.c -- the hosts resolver of GoAccess

    A shallow embedding of [src/gdns.c]: the bounded circular queue of
    pending addresses ([gqueue_*]), the resolution function
    ([reverse_host], [reverse_ip]), the producer [dns_resolver], the
    consumer loop [dns_worker] and the start-up code ([gdns_init],
    [gdns_thread_create]).

    Conventions of the embedding.
    - A C [int] is a [Z].  Every value the queue code computes stays
      between [-1] and [capacity], so no [int] operation overflows as long
      as [capacity] itself is an [int]; C's [%] (truncating) is [Z.rem].
    - A C string is a [string]; [strcmp] compares contents.
    - [GDnsQueue.buffer], declared in gdns.h as an array of fixed-size
      character slots, is a [list string]: one element per slot.  A slot
      is read and written through its index, and a [char *] into the
      buffer is the index of its slot, so that two pointers to the same
      slot alias.  An address is taken to fit its slot ([strcpy] does not
      check); an index outside the array is undefined behaviour in C and is
      given a fixed meaning here (a write does nothing, a read gives the
      empty string).
    - Calls that leave the program (the libc parsers, the name lookup, the
      hostname store, the condition variables) are recorded in a trace of
      [event]s. *)

From Stdlib Require Import ZArith Lia Ascii.
From stdpp Require Import base option list list_numbers strings gmap pretty.

Local Open Scope Z_scope.

(** ** The queue *)

(** [GDnsQueue] of gdns.h.  The fields [head], [tail], [size], [capacity]
    and [buffer] carry the prefix [q_], as their plain names are those of
    list functions. *)
Record GDnsQueue : Type := mkGDnsQueue {
  q_head : Z;
  q_tail : Z;
  q_size : Z;
  q_capacity : Z;
  q_buffer : list string
}.

(** [q->buffer[i]] read as a string. *)
Definition buffer_get (b : list string) (i : Z) : string :=
  if i <? 0 then "" else default "" (b !! Z.to_nat i).

(** [strcpy (q->buffer[i], item)]. *)
Definition buffer_set (b : list string) (i : Z) (item : string) : list string :=
  if i <? 0 then b else <[Z.to_nat i := item]> b.

(** [strcmp]: zero exactly when the two strings are equal, otherwise the
    sign of the first difference. *)
Definition strcmp (s1 s2 : string) : Z :=
  match String.compare s1 s2 with
  | Eq => 0
  | Lt => -1
  | Gt => 1
  end.

(** An [int] used as a condition. *)
Definition truthy (z : Z) : bool := negb (z =? 0).

Definition gqueue_init (q : GDnsQueue) (capacity : Z) : GDnsQueue :=
  {| q_head := 0;
     q_tail := -1;
     q_size := 0;
     q_capacity := capacity;
     q_buffer := q_buffer q |}.

Definition gqueue_size (q : GDnsQueue) : Z := q_size q.

(** The two tests return 0 or 1 and are only used as conditions: they are
    booleans here. *)
Definition gqueue_empty (q : GDnsQueue) : bool := q_size q =? 0.

Definition gqueue_full (q : GDnsQueue) : bool := q_size q =? q_capacity q.

(** Returns the [int] result and the queue after the call. *)
Definition gqueue_enqueue (q : GDnsQueue) (item : string) : Z * GDnsQueue :=
  if gqueue_full q then (-1, q)
  else
    let tail := Z.rem (q_tail q + 1) (q_capacity q) in
    (0, {| q_head := q_head q;
           q_tail := tail;
           q_size := q_size q + 1;
           q_capacity := q_capacity q;
           q_buffer := buffer_set (q_buffer q) tail item |}).

(** The [for] loop of [gqueue_find], entered at index [i]; [fuel] bounds
    the number of iterations and [Z.to_nat (q_size q)] lets the loop run
    to its exit test. *)
Fixpoint gqueue_find_loop (fuel : nat) (q : GDnsQueue) (item : string) (i : Z) : Z :=
  match fuel with
  | O => 0
  | S fuel' =>
      if i <? q_size q then
        if strcmp item (buffer_get (q_buffer q) i) =? 0 then 1
        else gqueue_find_loop fuel' q item (i + 1)
      else 0
  end.

Definition gqueue_find (q : GDnsQueue) (item : string) : Z :=
  if gqueue_empty q then 0
  else gqueue_find_loop (Z.to_nat (q_size q)) q item 0.

(** The returned [char *] points into the buffer: it is the index of the
    slot, [None] for [NULL]. *)
Definition gqueue_dequeue (q : GDnsQueue) : option Z * GDnsQueue :=
  if gqueue_empty q then (None, q)
  else
    let item := q_head q in
    (Some item,
     {| q_head := Z.rem (q_head q + 1) (q_capacity q);
        q_tail := q_tail q;
        q_size := q_size q - 1;
        q_capacity := q_capacity q;
        q_buffer := q_buffer q |}).

(** The string a [char *] designates at the moment it is read. *)
Definition deref (q : GDnsQueue) (p : option Z) : option string :=
  buffer_get (q_buffer q) <$> p.

(** ** Calls that leave the program *)

Inductive family : Type := AF_INET | AF_INET6.

(** The [union] of socket addresses that [reverse_ip] fills in: the
    address family and the bytes of the binary address written by the
    parser. *)
Record sockaddr : Type := mkSockaddr {
  sa_family : family;
  sa_addr : list Z
}.

(** The two condition variables of [gdns_thread]. *)
Inductive cond : Type := not_empty | not_full.

Inductive event : Type :=
| EvInetPton (af : family) (src : string)
| EvGetnameinfo (a : sockaddr) (length flags : Z)
| EvHtInsertHostname (ip : option string) (host : string)
| EvCondBroadcast (c : cond)
| EvCondSignal (c : cond).

(** What the system's library answers.  [inet_pton af src] gives the
    [int] result and the binary address stored at [dst];
    [getnameinfo a length flags] gives the status and the contents of the
    host buffer [h] (its size [H_SIZE] and the absent service buffer are
    the same in every call).  The three constants come from the system
    headers. *)
Record Netdb : Type := mkNetdb {
  inet_pton : family → string → Z * list Z;
  getnameinfo : sockaddr → Z → Z → Z * string;
  gai_strerror : Z → string;
  NI_NAMEREQD : Z;
  sizeof_sockaddr_in : Z;
  sizeof_sockaddr_in6 : Z
}.

(** A computation with the trace of the calls it made. *)
Definition M (A : Type) : Type := (A * list event)%type.

#[global] Instance M_ret : MRet M := λ A a, (a, []).

#[global] Instance M_bind : MBind M := λ A B f m,
  let '(a, t1) := m in
  let '(b, t2) := f a in
  (b, t1 ++ t2).

(** An outside call [e] that answered [r]. *)
Definition call {A : Type} (e : event) (r : A) : M A := (r, [e]).

(** Modelled from the spec: [alloc_string] of util.c, which is not part
    of this excerpt.  [reverse_host] documents its result as a malloc'd
    string: a fresh copy of the argument, never [NULL]. *)
Definition alloc_string (s : string) : option string := Some s.

(** ** The resolution function *)

Section Resolution.
Variable env : Netdb.

Definition reverse_host (a : sockaddr) (length : Z) : M (option string) :=
  let flags := NI_NAMEREQD env in
  '(st, h) ← call (EvGetnameinfo a length flags) (getnameinfo env a length flags);
  if negb (truthy st) then mret (alloc_string h)
  else mret (alloc_string (gai_strerror env st)).

(** [str] is [None] for a [NULL] pointer. *)
Definition reverse_ip (str : option string) : M (option string) :=
  match str with
  | None => mret None
  | Some "" => mret None
  | Some s =>
      '(r4, a4) ← call (EvInetPton AF_INET s) (inet_pton env AF_INET s);
      if 1 =? r4 then
        reverse_host {| sa_family := AF_INET; sa_addr := a4 |} (sizeof_sockaddr_in env)
      else
        '(r6, a6) ← call (EvInetPton AF_INET6 s) (inet_pton env AF_INET6 s);
        if 1 =? r6 then
          reverse_host {| sa_family := AF_INET6; sa_addr := a6 |} (sizeof_sockaddr_in6 env)
        else mret None
  end.
End Resolution.

(** ** Producer and consumer *)

(** Where the worker thread stands in [dns_worker]. *)
Inductive worker_pc : Type :=
| Waiting                                          (* top of the loop, or in pthread_cond_wait *)
| Resolving (ip : option Z)                        (* mutex released, before reverse_ip (ip) *)
| Publishing (ip : option Z) (host : option string) (* reverse_ip returned, before the second lock *)
| Stopped.                                         (* left the loop through break *)

(** The state shared by the threads: the globals [gdns_queue] and
    [active_gdns], whether [gdns_thread.mutex] is locked between two
    critical sections, the worker thread, and the calls made so far. *)
Record GDns : Type := mkGDns {
  gdns_queue : GDnsQueue;
  active_gdns : bool;
  mutex : bool;
  worker : worker_pc;
  trace : list event
}.

(** The critical section of [dns_resolver]: the queue afterwards, and
    whether the branch that enqueues and broadcasts was taken. *)
Definition dns_resolver_locked (q : GDnsQueue) (addr : string) : GDnsQueue * bool :=
  if negb (gqueue_full q) && negb (truthy (gqueue_find q addr)) then
    ((gqueue_enqueue q addr).2, true)
  else (q, false).

(** [dns_resolver (addr)] run by a producer thread; [None] when the call
    cannot get the mutex. *)
Definition dns_resolver (addr : string) (s : GDns) : option GDns :=
  if mutex s then None
  else
    let '(q, admitted) := dns_resolver_locked (gdns_queue s) addr in
    Some {| gdns_queue := q;
            active_gdns := active_gdns s;
            mutex := false;
            worker := worker s;
            trace := trace s ++ (if admitted then [EvCondBroadcast not_empty] else []) |}.

(** One stretch of [dns_worker] between two synchronisation points, with
    the library answering as [env]; [None] when the thread cannot move
    (blocked on the mutex or on [not_empty], or finished). *)
Definition dns_worker_step (env : Netdb) (s : GDns) : option GDns :=
  match worker s with
  | Waiting =>
      if mutex s then None
      else if gqueue_empty (gdns_queue s) then None
      else
        let '(ip, q) := gqueue_dequeue (gdns_queue s) in
        Some {| gdns_queue := q;
                active_gdns := active_gdns s;
                mutex := false;
                worker := Resolving ip;
                trace := trace s |}
  | Resolving ip =>
      let '(host, calls) := reverse_ip env (deref (gdns_queue s) ip) in
      Some {| gdns_queue := gdns_queue s;
              active_gdns := active_gdns s;
              mutex := mutex s;
              worker := Publishing ip host;
              trace := trace s ++ calls |}
  | Publishing ip host =>
      if mutex s then None
      else if negb (active_gdns s) then
        (* free (host); break: the mutex is not released *)
        Some {| gdns_queue := gdns_queue s;
                active_gdns := active_gdns s;
                mutex := true;
                worker := Stopped;
                trace := trace s |}
      else
        let put :=
          match host with
          | Some h =>
              if active_gdns s then [EvHtInsertHostname (deref (gdns_queue s) ip) h]
              else []
          | None => []
          end in
        Some {| gdns_queue := gdns_queue s;
                active_gdns := active_gdns s;
                mutex := false;
                worker := Waiting;
                trace := trace s ++ put ++ [EvCondSignal not_full] |}
  | Stopped => None
  end.

(** What a thread can do next. *)
Inductive action : Type :=
| ADnsResolver (addr : string)   (* a producer calls dns_resolver (addr) *)
| ASetActive (b : bool)          (* code outside gdns.c assigns active_gdns *)
| AWorker (env : Netdb).         (* the worker runs to its next synchronisation point *)

Definition step (a : action) (s : GDns) : option GDns :=
  match a with
  | ADnsResolver addr => dns_resolver addr s
  | ASetActive b =>
      Some {| gdns_queue := gdns_queue s;
              active_gdns := b;
              mutex := mutex s;
              worker := worker s;
              trace := trace s |}
  | AWorker env => dns_worker_step env s
  end.

(** A schedule is a list of actions; it runs as long as every action can
    move. *)
Fixpoint run (sched : list action) (s : GDns) : option GDns :=
  match sched with
  | [] => Some s
  | a :: sched' => s' ← step a s; run sched' s'
  end.

(** ** Start-up *)

(** Modelled from the spec: the [FATAL] macro of error.h, which is not
    part of this excerpt.  An initialisation failure is fatal and start-up
    aborts: the call does not return, and [Aborts] keeps the format string
    and its arguments. *)
Inductive outcome (A : Type) : Type :=
| Returns (a : A)
| Aborts (fmt : string) (args : list Z).

Arguments Returns {A} a.
Arguments Aborts {A} fmt args.

Definition FATAL {A : Type} (fmt : string) (args : list Z) : outcome A :=
  Aborts fmt args.

(** The return codes of the thread library. *)
Record Pthread : Type := mkPthread {
  pthread_cond_init : cond → Z;
  pthread_mutex_init : Z;
  pthread_create : Z
}.

Section Startup.
Variable QUEUE_SIZE : Z.
Variable pt : Pthread.

(** [mem] is the block that [xmalloc] returned, with whatever it holds. *)
Definition gdns_init (mem : GDnsQueue) : outcome GDnsQueue :=
  let q := gqueue_init mem QUEUE_SIZE in
  if truthy (pthread_cond_init pt not_empty) then
    FATAL "Failed init thread condition" []
  else if truthy (pthread_cond_init pt not_full) then
    FATAL "Failed init thread condition" []
  else if truthy (pthread_mutex_init pt) then
    FATAL "Failed init thread mutex" []
  else Returns q.

(** The state once the worker thread exists. *)
Definition gdns_thread_create (q : GDnsQueue) : outcome GDns :=
  let active := true in
  let thread := pthread_create pt in
  if truthy thread then
    FATAL "Return code from pthread_create(): %d" [thread]
  else
    Returns {| gdns_queue := q;
               active_gdns := active;
               mutex := false;
               worker := Waiting;
               trace := [] |}.
End Startup.

(** ** Notions used to state the properties *)

(** The live entries: the [size] slots from [head] on, in circular
    order. *)
Definition live (q : GDnsQueue) : list string :=
  (λ k, buffer_get (q_buffer q) (Z.rem (q_head q + k) (q_capacity q)))
    <$> seqZ 0 (q_size q).

(** The slots [gqueue_find] compares with: the first [size] ones. *)
Definition scanned (q : GDnsQueue) : list string :=
  buffer_get (q_buffer q) <$> seqZ 0 (q_size q).

Definition size_bounded (q : GDnsQueue) : Prop :=
  0 ≤ q_size q ≤ q_capacity q.

(** The representation invariant of the circular buffer. *)
Definition queue_inv (q : GDnsQueue) : Prop :=
  0 < q_capacity q ∧
  q_capacity q ≤ Z.of_nat (length (q_buffer q)) ∧
  0 ≤ q_head q < q_capacity q ∧
  -1 ≤ q_tail q < q_capacity q ∧
  size_bounded q ∧
  (q_tail q + 1) `mod` q_capacity q = (q_head q + q_size q) `mod` q_capacity q.

(** The operations of the queue as one type; the four observers leave the
    structure as it is. *)
Inductive queue_op : Type :=
| OpEnqueue (item : string)
| OpDequeue
| OpFind (item : string)
| OpSize
| OpEmpty
| OpFull.

Definition apply_op (q : GDnsQueue) (op : queue_op) : GDnsQueue :=
  match op with
  | OpEnqueue item => (gqueue_enqueue q item).2
  | OpDequeue => (gqueue_dequeue q).2
  | OpFind _ | OpSize | OpEmpty | OpFull => q
  end.

(** Queue states that the program can reach: [gdns_init] initialises the
    queue with a positive capacity that the buffer can hold; afterwards
    producers submit and the worker takes. *)
Inductive reachable : GDnsQueue → Prop :=
| reachable_init mem capacity :
    0 < capacity → capacity ≤ Z.of_nat (length (q_buffer mem)) →
    reachable (gqueue_init mem capacity)
| reachable_submit q addr :
    reachable q → reachable (dns_resolver_locked q addr).1
| reachable_take q :
    reachable q → reachable (gqueue_dequeue q).2.

(** Submit the addresses one after the other with no take in between:
    the queue afterwards and the addresses that were admitted. *)
Fixpoint submit_all (q : GDnsQueue) (addrs : list string) : GDnsQueue * list string :=
  match addrs with
  | [] => (q, [])
  | addr :: addrs' =>
      let '(q1, admitted) := dns_resolver_locked q addr in
      let '(q2, rest) := submit_all q1 addrs' in
      (q2, if admitted then addr :: rest else rest)
  end.

(** Take at most [fuel] times, reading each string as soon as its pointer
    is returned: the strings in the order taken, and the queue left. *)
Fixpoint drain (fuel : nat) (q : GDnsQueue) : list string * GDnsQueue :=
  match fuel with
  | O => ([], q)
  | S fuel' =>
      match gqueue_dequeue q with
      | (Some p, q1) =>
          let '(rest, q2) := drain fuel' q1 in
          (buffer_get (q_buffer q1) p :: rest, q2)
      | (None, q1) => ([], q1)
      end
  end.

(** The address that [reverse_ip] hands to [reverse_host] for [s], with
    its length, if one of the two parsers accepts [s]. *)
Definition parsed (env : Netdb) (s : string) : option (sockaddr * Z) :=
  if 1 =? (inet_pton env AF_INET s).1 then
    Some ({| sa_family := AF_INET; sa_addr := (inet_pton env AF_INET s).2 |},
          sizeof_sockaddr_in env)
  else if 1 =? (inet_pton env AF_INET6 s).1 then
    Some ({| sa_family := AF_INET6; sa_addr := (inet_pton env AF_INET6 s).2 |},
          sizeof_sockaddr_in6 env)
  else None.

(** The parses that [reverse_ip] attempts on a non-empty [s], in order:
    IPv4, and IPv6 if the IPv4 parser did not accept [s]. *)
Definition parse_attempts (env : Netdb) (s : string) : list event :=
  EvInetPton AF_INET s ::
    (if 1 =? (inet_pton env AF_INET s).1 then [] else [EvInetPton AF_INET6 s]).

(** The puts into the hostname store that a trace holds. *)
Definition puts (t : list event) : list (option string * string) :=
  omap (λ e, match e with
             | EvHtInsertHostname ip host => Some (ip, host)
             | _ => None
             end) t.

(** The name lookups that a trace holds. *)
Definition lookups (t : list event) : list sockaddr :=
  omap (λ e, match e with
             | EvGetnameinfo a _ _ => Some a
             | _ => None
             end) t.

(** Actions of the other threads. *)
Definition not_worker (a : action) : Prop :=
  match a with
  | AWorker _ => False
  | _ => True
  end.

(** ** Concrete data for the examples *)

(** A library that knows two IPv4 addresses and the name of one of them. *)
Definition stub_netdb : Netdb :=
  {| inet_pton := λ af s,
       match af with
       | AF_INET =>
           if bool_decide (s = "10.0.0.1") then (1, [10; 0; 0; 1])
           else if bool_decide (s = "93.184.216.34") then (1, [93; 184; 216; 34])
           else (0, [])
       | AF_INET6 => (0, [])
       end;
     getnameinfo := λ a _ _,
       if bool_decide (sa_addr a = [93; 184; 216; 34]) then (0, "example.com")
       else (-2, "");
     gai_strerror := λ st,
       if st =? -2 then "Name or service not known" else "Unknown error";
     NI_NAMEREQD := 8;
     sizeof_sockaddr_in := 16;
     sizeof_sockaddr_in6 := 28 |}.

(** A thread library whose calls all succeed. *)
Definition pthread_ok : Pthread :=
  {| pthread_cond_init := λ _, 0; pthread_mutex_init := 0; pthread_create := 0 |}.

(** A freshly allocated queue of [n] slots. *)
Definition fresh_mem (n : nat) : GDnsQueue := mkGDnsQueue 0 0 0 0 (replicate n "").

(** The state after [gdns_init] and [gdns_thread_create] with a queue of
    [n] slots. *)
Definition started (n : nat) : GDns :=
  {| gdns_queue := gqueue_init (fresh_mem n) (Z.of_nat n);
     active_gdns := true;
     mutex := false;
     worker := Waiting;
     trace := [] |}.

(** A queue of three slots after two submissions and one take: [head]
    has left slot 0, which still holds the address taken. *)
Definition wrapped_queue : GDnsQueue :=
  (gqueue_dequeue
     (dns_resolver_locked
        (dns_resolver_locked (gqueue_init (fresh_mem 3) 3) "10.0.0.1").1
        "10.0.0.2").1).2.

(** Two submissions fill a queue of two slots, then the worker takes the
    first address. *)
Definition fill_and_take : list action :=
  [ADnsResolver "10.0.0.1"; ADnsResolver "10.0.0.2"; AWorker stub_netdb].

(** A thread library in which the mutex cannot be initialised and the
    thread cannot be created. *)
Definition pthread_failing : Pthread :=
  {| pthread_cond_init := λ _, 0; pthread_mutex_init := 12; pthread_create := 11 |}.

(** ** Notions for the queue and the threads under any use *)

(** What one operation hands over: the item that [gqueue_enqueue]
    accepted, and the string read through the pointer that
    [gqueue_dequeue] returned. *)
Definition accepted (q : GDnsQueue) (op : queue_op) : list string :=
  match op with
  | OpEnqueue item => if (gqueue_enqueue q item).1 =? 0 then [item] else []
  | _ => []
  end.

Definition returned (q : GDnsQueue) (op : queue_op) : list string :=
  match op with
  | OpDequeue =>
      match gqueue_dequeue q with
      | (Some p, q1) => [buffer_get (q_buffer q1) p]
      | (None, _) => []
      end
  | _ => []
  end.

(** Run operations in any order: the items accepted, the strings
    returned, and the queue left. *)
Fixpoint play (q : GDnsQueue) (ops : list queue_op)
    : list string * list string * GDnsQueue :=
  match ops with
  | [] => ([], [], q)
  | op :: ops' =>
      let '(ins, outs, q') := play (apply_op q op) ops' in
      (accepted q op ++ ins, returned q op ++ outs, q')
  end.

(** The pointer that the worker holds between its critical sections
    designates a slot of the queue. *)
Definition worker_pointer_valid (s : GDns) : Prop :=
  match worker s with
  | Resolving ip | Publishing ip _ =>
      ∃ p, ip = Some p ∧ 0 ≤ p < q_capacity (gdns_queue s)
  | Waiting | Stopped => True
  end.

(** What holds of the shared state between any two critical sections. *)
Definition gdns_inv (s : GDns) : Prop :=
  queue_inv (gdns_queue s) ∧
  worker_pointer_valid s ∧
  (mutex s = true ↔ worker s = Stopped).

(** The states of the threads that the program can reach: start-up
    succeeds on a queue of [QUEUE_SIZE] slots, then the threads act in
    some order. *)
Definition gdns_reachable (s : GDns) : Prop :=
  ∃ QUEUE_SIZE pt mem q s0 sched,
    0 < QUEUE_SIZE ∧ QUEUE_SIZE ≤ Z.of_nat (length (q_buffer mem)) ∧
    gdns_init QUEUE_SIZE pt mem = Returns q ∧
    gdns_thread_create pt q = Returns s0 ∧
    run sched s0 = Some s.

(** * tcbtdb.c -- Tokyo Cabinet database functions

    The file is compiled when [TCB_BTREE] is defined.  Tokyo Cabinet is a
    library outside the program; the two calls of it that [ins_igsl]
    makes are given the meaning of its API documentation, on a database
    whose keys and values are [int]s: a finite map from each key to the
    list of the values of its records, in the order in which they were
    stored. *)

(** ** The list search and [ins_igsl] *)

Definition find_int_key_in_list (data needle : Z) : Z :=
  if data =? needle then 1 else 0.

(** The [for] loop of [is_value_in_tclist], entered at index [i];
    [tclistnum] is the length of the list and [tclistval] its element at
    the index. *)
Fixpoint is_value_in_tclist_loop (fuel : nat) (tclist : list Z) (value : Z) (i : Z) : Z :=
  match fuel with
  | O => 0
  | S fuel' =>
      if i <? Z.of_nat (length tclist) then
        match tclist !! Z.to_nat i with
        | Some val =>
            if truthy (find_int_key_in_list value val) then 1
            else is_value_in_tclist_loop fuel' tclist value (i + 1)
        | None => 0
        end
      else 0
  end.

(** [tclist] is [None] for a [NULL] pointer. *)
Definition is_value_in_tclist (tclist : option (list Z)) (value : Z) : Z :=
  match tclist with
  | None => 0
  | Some l => is_value_in_tclist_loop (length l) l value 0
  end.

(** [tcbdbget4]: the values of the records under [key], [NULL] when there
    is none. *)
Definition tcbdbget4 (bdb : gmap Z (list Z)) (key : Z) : option (list Z) :=
  bdb !! key.

(** [tcbdbputdup]: stores a record, behind the records that the key
    already has; [stored] is whether the library could store it, and a
    failed call leaves the database as it was. *)
Definition tcbdbputdup (stored : bool) (bdb : gmap Z (list Z)) (key value : Z)
    : bool * gmap Z (list Z) :=
  if stored then (true, <[key := default [] (bdb !! key) ++ [value]]> bdb)
  else (false, bdb).

(** [hash] is [None] for a [NULL] handle; the result is the [int]
    returned and the database afterwards. *)
Definition ins_igsl (stored : bool) (hash : option (gmap Z (list Z)))
    (key value : Z) : Z * option (gmap Z (list Z)) :=
  match hash with
  | None => (-1, None)
  | Some bdb =>
      let in_list :=
        match tcbdbget4 bdb key with
        | Some list => if truthy (is_value_in_tclist (Some list) value) then 1 else 0
        | None => 0
        end in
      if negb (truthy in_list) then
        let '(ok, bdb') := tcbdbputdup stored bdb key value in
        if ok then (0, Some bdb') else (-1, Some bdb')
      else (-1, Some bdb)
  end.

(** ** The parameter string *)

(** An argument of a [printf]-style call. *)
Inductive fmt_arg : Type :=
| ArgString (s : string)
| ArgInt (z : Z)
| ArgLong (z : Z)
| ArgChar (c : ascii).

(** The fields of the global [conf] that the file reads. *)
Record GConf : Type := mkGConf {
  cache_lcnum : Z;
  cache_ncnum : Z;
  xmmap : Z;
  tune_lmemb : Z;
  tune_nmemb : Z;
  tune_bnum : Z;
  compression : Z;
  load_from_disk : Z
}.

(** A value stored in a [uint32_t]. *)
Definition uint32 (z : Z) : Z := z `mod` 2 ^ 32.

Section DbParams.
(** The constants of tcbtdb.h. *)
Variable DB_PARAMS : Z.
Variables TC_LCNUM TC_NCNUM TC_LMEMB TC_NMEMB TC_BNUM TC_BZ2 TC_ZLIB : Z.
(** The text that the C library produces for a format and its arguments,
    [None] when it reports an output error. *)
Variable format : string → list fmt_arg → option (list ascii).

(** [vsnprintf (params + len, size, fmt, args)] seen on the string that
    [params] holds: the characters before [len] stay, at most [size - 1]
    characters of the text follow, and the result is the length of the
    whole text.  Nothing is written when [size] is 0, and a string that
    ends before [len] still ends there.  What an output error leaves in
    the buffer is unspecified in C; the buffer is kept here. *)
Definition vsnprintf (params : list ascii) (len size : Z) (fmt : string)
    (args : list fmt_arg) : Z * list ascii :=
  match format fmt args with
  | None => (-1, params)
  | Some text =>
      (Z.of_nat (length text),
       if (size <=? 0) || (Z.of_nat (length params) <? len) then params
       else take (Z.to_nat len) params ++ take (Z.to_nat (size - 1)) text)
  end.

(** The debug log is left out. *)
Definition set_dbparam (params : list ascii) (len : Z) (fmt : string)
    (args : list fmt_arg) : Z * list ascii :=
  let '(n, params) := vsnprintf params len (DB_PARAMS - len) fmt args in
  let n :=
    if n <? 0 then 0
    else if n >=? DB_PARAMS - len then DB_PARAMS - len
    else n in
  (n, params).

(** [len += set_dbparam (params, len, fmt, ...)] on the pair of [len] and
    the buffer. *)
Definition put_dbparam (st : Z * list ascii) (fmt : string) (args : list fmt_arg)
    : Z * list ascii :=
  let '(n, params) := set_dbparam st.2 st.1 fmt args in
  (st.1 + n, params).

(** The buffer after the call; [path] is the database path. *)
Definition tc_db_get_params (conf : GConf) (params : list ascii) (path : string)
    : list ascii :=
  let st := (0, params) in
  let xmmap := xmmap conf in
  let st := put_dbparam st "%s" [ArgString path] in
  let lcnum := uint32 (if cache_lcnum conf >? 0 then cache_lcnum conf else TC_LCNUM) in
  let st := put_dbparam st "#%s=%d" [ArgString "lcnum"; ArgInt lcnum] in
  let ncnum := uint32 (if cache_ncnum conf >? 0 then cache_ncnum conf else TC_NCNUM) in
  let st := put_dbparam st "#%s=%d" [ArgString "ncnum"; ArgInt ncnum] in
  let st :=
    if xmmap >? 0 then put_dbparam st "#%s=%ld" [ArgString "xmsiz"; ArgLong xmmap]
    else st in
  let lmemb := uint32 (if tune_lmemb conf >? 0 then tune_lmemb conf else TC_LMEMB) in
  let st := put_dbparam st "#%s=%d" [ArgString "lmemb"; ArgInt lmemb] in
  let nmemb := uint32 (if tune_nmemb conf >? 0 then tune_nmemb conf else TC_NMEMB) in
  let st := put_dbparam st "#%s=%d" [ArgString "nmemb"; ArgInt nmemb] in
  let bnum := uint32 (if tune_bnum conf >? 0 then tune_bnum conf else TC_BNUM) in
  let st := put_dbparam st "#%s=%d" [ArgString "bnum"; ArgInt bnum] in
  let st := put_dbparam st "#%s=%c" [ArgString "opts"; ArgChar "l"] in
  let st :=
    if compression conf =? TC_BZ2 then put_dbparam st "%c" [ArgChar "b"]
    else if compression conf =? TC_ZLIB then put_dbparam st "%c" [ArgChar "d"]
    else st in
  let st := put_dbparam st "#%s=%s" [ArgString "mode"; ArgString "wc"] in
  let st :=
    if negb (truthy (load_from_disk conf)) then put_dbparam st "%c" [ArgChar "t"]
    else st in
  st.2.

(** The calls that [tc_db_get_params] makes, in order. *)
Definition db_param_calls (conf : GConf) (path : string)
    : list (string * list fmt_arg) :=
  [("%s", [ArgString path]);
   ("#%s=%d", [ArgString "lcnum";
               ArgInt (uint32 (if cache_lcnum conf >? 0 then cache_lcnum conf
                               else TC_LCNUM))]);
   ("#%s=%d", [ArgString "ncnum";
               ArgInt (uint32 (if cache_ncnum conf >? 0 then cache_ncnum conf
                               else TC_NCNUM))])]
  ++ (if xmmap conf >? 0 then [("#%s=%ld", [ArgString "xmsiz"; ArgLong (xmmap conf)])]
      else [])
  ++ [("#%s=%d", [ArgString "lmemb";
                  ArgInt (uint32 (if tune_lmemb conf >? 0 then tune_lmemb conf
                                  else TC_LMEMB))]);
      ("#%s=%d", [ArgString "nmemb";
                  ArgInt (uint32 (if tune_nmemb conf >? 0 then tune_nmemb conf
                                  else TC_NMEMB))]);
      ("#%s=%d", [ArgString "bnum";
                  ArgInt (uint32 (if tune_bnum conf >? 0 then tune_bnum conf
                                  else TC_BNUM))]);
      ("#%s=%c", [ArgString "opts"; ArgChar "l"])]
  ++ (if compression conf =? TC_BZ2 then [("%c", [ArgChar "b"])]
      else if compression conf =? TC_ZLIB then [("%c", [ArgChar "d"])]
      else [])
  ++ [("#%s=%s", [ArgString "mode"; ArgString "wc"])]
  ++ (if negb (truthy (load_from_disk conf)) then [("%c", [ArgChar "t"])] else []).

(** The texts of a list of calls, one after the other, when no call
    reports an error. *)
Fixpoint texts (calls : list (string * list fmt_arg)) : option (list ascii) :=
  match calls with
  | [] => Some []
  | (fmt, args) :: calls' =>
      text ← format fmt args; rest ← texts calls'; Some (text ++ rest)
  end.
End DbParams.

(** ** Concrete data for the examples of tcbtdb.c *)

(** A formatter that knows the four conversions used in the file. *)
Fixpoint stub_format_go (fmt : list ascii) (args : list fmt_arg) : option (list ascii) :=
  match fmt, args with
  | [], _ => Some []
  | "%"%char :: "s"%char :: fmt', ArgString s :: args' =>
      (λ t, String.list_ascii_of_string s ++ t) <$> stub_format_go fmt' args'
  | "%"%char :: "d"%char :: fmt', ArgInt z :: args' =>
      (λ t, String.list_ascii_of_string (pretty z) ++ t) <$> stub_format_go fmt' args'
  | "%"%char :: "l"%char :: "d"%char :: fmt', ArgLong z :: args' =>
      (λ t, String.list_ascii_of_string (pretty z) ++ t) <$> stub_format_go fmt' args'
  | "%"%char :: "c"%char :: fmt', ArgChar c :: args' =>
      (λ t, c :: t) <$> stub_format_go fmt' args'
  | "%"%char :: _, _ => None
  | c :: fmt', _ => (λ t, c :: t) <$> stub_format_go fmt' args
  end.

Definition stub_format (fmt : string) (args : list fmt_arg) : option (list ascii) :=
  stub_format_go (String.list_ascii_of_string fmt) args.

(** A configuration that sets the leaf cache and the extra mapped memory
    and asks for zlib compression (3 in the call below), loading from
    disk. *)
Definition stub_conf : GConf :=
  {| cache_lcnum := 2048; cache_ncnum := 0; xmmap := 5; tune_lmemb := 0;
     tune_nmemb := 0; tune_bnum := 0; compression := 3; load_from_disk := 1 |}.

(** A database in which key 7 has two records. *)
Definition stub_bdb : gmap Z (list Z) := {[ 7 := [10; 20] ]}.

(** * Properties *)

Arguments reverse_ip : simpl never.
Arguments reverse_host : simpl never.


(** ** Arithmetic of the circular index *)

Lemma rem_wrap (x c : Z) :
  0 ≤ x < 2 * c → Z.rem x c = if x <? c then x else x - c.
Proof.
  intros Hx. rewrite Z.rem_mod_nonneg by lia.
  destruct (Z.ltb_spec x c).
  - apply Z.mod_small. lia.
  - replace x with ((x - c) + 1 * c) at 1 by lia.
    rewrite Z_mod_plus_full. apply Z.mod_small. lia.
Qed.

Lemma mod_wrap (x c : Z) :
  0 ≤ x < 2 * c → x `mod` c = if x <? c then x else x - c.
Proof.
  intros Hx. rewrite <- Z.rem_mod_nonneg by lia. by apply rem_wrap.
Qed.

Lemma fmap_seqZ_ext {A : Type} (f g : Z → A) (m n : Z) :
  (∀ k, m ≤ k < m + n → f k = g k) → f <$> seqZ m n = g <$> seqZ m n.
Proof.
  intros Hfg. apply list_fmap_ext. intros i k Hk.
  apply Hfg, elem_of_seqZ, list_elem_of_lookup. eauto.
Qed.

(** ** Slots *)

Lemma buffer_get_set_eq (b : list string) (i : Z) (x : string) :
  0 ≤ i < Z.of_nat (length b) → buffer_get (buffer_set b i x) i = x.
Proof.
  intros Hi. unfold buffer_get, buffer_set.
  destruct (Z.ltb_spec i 0); [lia|].
  rewrite list_lookup_insert_eq by lia. done.
Qed.

Lemma buffer_get_set_ne (b : list string) (i j : Z) (x : string) :
  0 ≤ i → 0 ≤ j → i ≠ j → buffer_get (buffer_set b i x) j = buffer_get b j.
Proof.
  intros Hi Hj Hij. unfold buffer_get, buffer_set.
  destruct (Z.ltb_spec i 0); [lia|].
  rewrite list_lookup_insert_ne by lia. done.
Qed.

Lemma length_buffer_set (b : list string) (i : Z) (x : string) :
  length (buffer_set b i x) = length b.
Proof. unfold buffer_set. destruct (i <? 0); [done|apply length_insert]. Qed.

Lemma strcmp_eq (s1 s2 : string) : (strcmp s1 s2 =? 0) = bool_decide (s1 = s2).
Proof.
  unfold strcmp. destruct (String.compare s1 s2) eqn:Hc.
  - apply String.compare_eq_iff in Hc. by rewrite bool_decide_eq_true_2.
  - rewrite bool_decide_eq_false_2; [done|].
    intros ->. pose proof (String.compare_antisym s2 s2) as Ha.
    rewrite Hc in Ha. discriminate.
  - rewrite bool_decide_eq_false_2; [done|].
    intros ->. pose proof (String.compare_antisym s2 s2) as Ha.
    rewrite Hc in Ha. discriminate.
Qed.

(** ** The queue operations and the invariant *)

Lemma gqueue_full_false (q : GDnsQueue) :
  gqueue_full q = false ↔ q_size q ≠ q_capacity q.
Proof. unfold gqueue_full. by rewrite Z.eqb_neq. Qed.

Lemma gqueue_empty_false (q : GDnsQueue) :
  gqueue_empty q = false ↔ q_size q ≠ 0.
Proof. unfold gqueue_empty. by rewrite Z.eqb_neq. Qed.

Lemma queue_inv_init (mem : GDnsQueue) (capacity : Z) :
  0 < capacity → capacity ≤ Z.of_nat (length (q_buffer mem)) →
  queue_inv (gqueue_init mem capacity).
Proof.
  intros Hc Hlen. unfold queue_inv, size_bounded. simpl.
  repeat split; try lia.
Qed.

Lemma queue_inv_enqueue (q : GDnsQueue) (item : string) :
  queue_inv q → queue_inv (gqueue_enqueue q item).2.
Proof.
  intros Hq. unfold gqueue_enqueue.
  destruct (gqueue_full q) eqn:Hfull; [done|].
  apply gqueue_full_false in Hfull.
  destruct Hq as (Hc & Hlen & Hh & Ht & [Hs0 Hs1] & Heq).
  unfold queue_inv, size_bounded. simpl.
  rewrite length_buffer_set.
  rewrite Z.rem_mod_nonneg by lia.
  pose proof (Z.mod_pos_bound (q_tail q + 1) (q_capacity q) Hc).
  repeat split; try lia.
  rewrite Heq, Zplus_mod_idemp_l. f_equal. lia.
Qed.

Lemma queue_inv_dequeue (q : GDnsQueue) :
  queue_inv q → queue_inv (gqueue_dequeue q).2.
Proof.
  intros Hq. unfold gqueue_dequeue.
  destruct (gqueue_empty q) eqn:Hempty; [done|].
  apply gqueue_empty_false in Hempty.
  destruct Hq as (Hc & Hlen & Hh & Ht & [Hs0 Hs1] & Heq).
  unfold queue_inv, size_bounded. simpl.
  rewrite Z.rem_mod_nonneg by lia.
  pose proof (Z.mod_pos_bound (q_head q + 1) (q_capacity q) Hc).
  repeat split; try lia.
  rewrite Heq, Zplus_mod_idemp_l. f_equal. lia.
Qed.

Lemma queue_inv_submit (q : GDnsQueue) (addr : string) :
  queue_inv q → queue_inv (dns_resolver_locked q addr).1.
Proof.
  intros Hq. unfold dns_resolver_locked.
  destruct (_ && _); simpl; [by apply queue_inv_enqueue|done].
Qed.

Lemma reachable_inv (q : GDnsQueue) : reachable q → queue_inv q.
Proof.
  induction 1; auto using queue_inv_init, queue_inv_submit, queue_inv_dequeue.
Qed.

(** ** The live entries under enqueue and dequeue *)

Lemma live_enqueue (q : GDnsQueue) (item : string) :
  queue_inv q → gqueue_full q = false →
  (gqueue_enqueue q item).1 = 0 ∧
  live (gqueue_enqueue q item).2 = live q ++ [item].
Proof.
  intros (Hc & Hlen & Hh & Ht & [Hs0 Hs1] & Heq) Hfull.
  unfold gqueue_enqueue. rewrite Hfull. split; [done|].
  apply gqueue_full_false in Hfull.
  unfold live. simpl.
  rewrite Z.rem_mod_nonneg, Heq by lia.
  rewrite mod_wrap by lia.
  rewrite seqZ_app, fmap_app by lia. f_equal.
  - apply fmap_seqZ_ext. intros k Hk.
    rewrite rem_wrap by lia.
    apply buffer_get_set_ne;
      destruct (Z.ltb_spec (q_head q + q_size q) (q_capacity q));
      destruct (Z.ltb_spec (q_head q + k) (q_capacity q)); lia.
  - rewrite seqZ_cons, seqZ_nil by lia. simpl. f_equal.
    rewrite rem_wrap by lia. rewrite Z.add_0_l.
    apply buffer_get_set_eq.
    destruct (Z.ltb_spec (q_head q + q_size q) (q_capacity q)); lia.
Qed.

Lemma live_dequeue (q : GDnsQueue) :
  queue_inv q → gqueue_empty q = false →
  (gqueue_dequeue q).1 = Some (q_head q) ∧
  live q = buffer_get (q_buffer (gqueue_dequeue q).2) (q_head q)
             :: live (gqueue_dequeue q).2.
Proof.
  intros (Hc & Hlen & Hh & Ht & [Hs0 Hs1] & Heq) Hempty.
  unfold gqueue_dequeue. rewrite Hempty. split; [done|].
  apply gqueue_empty_false in Hempty.
  unfold live. simpl.
  rewrite (seqZ_cons 0) by lia. simpl. f_equal.
  - f_equal. rewrite Z.add_0_r. rewrite rem_wrap by lia.
    destruct (Z.ltb_spec (q_head q) (q_capacity q)); lia.
  - change (Z.succ 0) with (1 + 0). rewrite <- fmap_add_seqZ, <- list_fmap_compose.
    apply fmap_seqZ_ext. intros k Hk. simpl. f_equal.
    rewrite !rem_wrap by
      (try rewrite rem_wrap by lia;
       destruct (Z.ltb_spec (q_head q + 1) (q_capacity q)); lia).
    destruct (Z.ltb_spec (q_head q + 1) (q_capacity q));
      destruct (Z.ltb_spec (q_head q + (1 + k)) (q_capacity q));
      destruct (Z.ltb_spec (q_head q + 1 + k) (q_capacity q));
      destruct (Z.ltb_spec (q_head q + 1 - q_capacity q + k) (q_capacity q));
      lia.
Qed.

Lemma live_scanned (q : GDnsQueue) :
  queue_inv q → q_head q = 0 → live q = scanned q.
Proof.
  intros (Hc & Hlen & Hh & Ht & [Hs0 Hs1] & Heq) Hhead.
  unfold live, scanned. apply fmap_seqZ_ext. intros k Hk.
  rewrite Hhead, Z.add_0_l, rem_wrap by lia.
  destruct (Z.ltb_spec k (q_capacity q)); [done|lia].
Qed.

(** ** What [gqueue_find] computes *)

Lemma gqueue_find_loop_spec (q : GDnsQueue) (item : string) (fuel : nat) (i : Z) :
  Z.of_nat fuel = q_size q - i →
  gqueue_find_loop fuel q item i =
    if bool_decide (item ∈ buffer_get (q_buffer q) <$> seqZ i (Z.of_nat fuel))
    then 1 else 0.
Proof.
  revert i. induction fuel as [|fuel IH]; intros i Hfuel.
  - cbn [gqueue_find_loop]. rewrite seqZ_nil by lia.
    rewrite bool_decide_eq_false_2; [done|]. apply not_elem_of_nil.
  - cbn [gqueue_find_loop].
    destruct (Z.ltb_spec i (q_size q)); [|lia].
    rewrite seqZ_cons by lia. rewrite fmap_cons.
    rewrite strcmp_eq. case_bool_decide as Heq.
    + rewrite bool_decide_eq_true_2; [done|]. subst. apply list_elem_of_here.
    + rewrite IH by lia.
      replace (Z.pred (Z.of_nat (S fuel))) with (Z.of_nat fuel) by lia.
      replace (Z.succ i) with (i + 1) by lia.
      apply (f_equal (λ b : bool, if b then 1 else 0)).
      apply bool_decide_ext. rewrite elem_of_cons. tauto.
Qed.

Lemma gqueue_find_spec (q : GDnsQueue) (item : string) :
  gqueue_find q item = if bool_decide (item ∈ scanned q) then 1 else 0.
Proof.
  unfold gqueue_find, scanned, gqueue_empty.
  destruct (Z.eqb_spec (q_size q) 0) as [H0|H0].
  - rewrite seqZ_nil by lia.
    rewrite bool_decide_eq_false_2; [done|]. apply not_elem_of_nil.
  - destruct (Z.le_gt_cases (q_size q) 0).
    + rewrite seqZ_nil by lia. replace (Z.to_nat (q_size q)) with 0%nat by lia.
      cbn [gqueue_find_loop].
      rewrite bool_decide_eq_false_2; [done|]. apply not_elem_of_nil.
    + rewrite gqueue_find_loop_spec by lia. by rewrite Z2Nat.id by lia.
Qed.

Lemma dns_resolver_locked_admits (q : GDnsQueue) (addr : string) :
  q_size q ≠ q_capacity q → addr ∉ scanned q →
  dns_resolver_locked q addr = ((gqueue_enqueue q addr).2, true).
Proof.
  intros Hfull Hnew. unfold dns_resolver_locked.
  rewrite (proj2 (gqueue_full_false q) Hfull), gqueue_find_spec.
  by rewrite bool_decide_eq_false_2.
Qed.

Lemma dns_resolver_locked_rejects (q : GDnsQueue) (addr : string) :
  q_size q = q_capacity q ∨ addr ∈ scanned q →
  dns_resolver_locked q addr = (q, false).
Proof.
  intros Hrej. unfold dns_resolver_locked, gqueue_full.
  destruct (Z.eqb_spec (q_size q) (q_capacity q)) as [|Hne]; [done|].
  destruct Hrej as [|Hin]; [done|].
  rewrite gqueue_find_spec, bool_decide_eq_true_2; done.
Qed.

Lemma dns_resolver_locked_cases (q : GDnsQueue) (addr : string) :
  dns_resolver_locked q addr = (q, false) ∨
  gqueue_full q = false ∧
    dns_resolver_locked q addr = ((gqueue_enqueue q addr).2, true).
Proof.
  unfold dns_resolver_locked.
  destruct (gqueue_full q); simpl; [by left|].
  destruct (negb (truthy _)); [by right|by left].
Qed.

(** ** Submitting and draining *)

Lemma live_empty (q : GDnsQueue) : q_size q ≤ 0 → live q = [].
Proof. intros Hs. unfold live. by rewrite seqZ_nil. Qed.

Lemma dequeue_size (q : GDnsQueue) :
  gqueue_empty q = false → q_size (gqueue_dequeue q).2 = q_size q - 1.
Proof. intros He. unfold gqueue_dequeue. by rewrite He. Qed.

Lemma submit_all_live (q : GDnsQueue) (addrs : list string) :
  queue_inv q →
  queue_inv (submit_all q addrs).1 ∧
  live (submit_all q addrs).1 = live q ++ (submit_all q addrs).2.
Proof.
  revert q. induction addrs as [|addr addrs IH]; intros q Hq.
  - simpl. by rewrite app_nil_r.
  - cbn [submit_all].
    pose proof (queue_inv_submit q addr Hq) as Hq1.
    destruct (dns_resolver_locked_cases q addr) as [Hr|[Hfull Hr]];
      rewrite Hr in *; cbn [fst] in Hq1;
      destruct (IH _ Hq1) as [Hinv Hlive];
      destruct (submit_all _ addrs) as [q2 rest]; cbn [fst snd] in *.
    + done.
    + split; [done|].
      rewrite Hlive, (proj2 (live_enqueue q addr Hq Hfull)).
      by rewrite <- app_assoc.
Qed.

Lemma drain_live (fuel : nat) (q : GDnsQueue) :
  queue_inv q → q_size q ≤ Z.of_nat fuel →
  (drain fuel q).1 = live q ∧ gqueue_empty (drain fuel q).2 = true.
Proof.
  revert q. induction fuel as [|fuel IH]; intros q Hq Hfuel.
  - assert (q_size q = 0) as H0
      by (destruct Hq as (_ & _ & _ & _ & [? ?] & _); lia).
    simpl. rewrite live_empty by lia. unfold gqueue_empty. by rewrite H0.
  - cbn [drain]. destruct (gqueue_empty q) eqn:Hempty.
    + unfold gqueue_dequeue. rewrite Hempty. simpl.
      rewrite live_empty; [done|].
      unfold gqueue_empty in Hempty. apply Z.eqb_eq in Hempty. lia.
    + destruct (live_dequeue q Hq Hempty) as [Hp Hlive].
      pose proof (queue_inv_dequeue q Hq) as Hq1.
      pose proof (dequeue_size q Hempty) as Hsize.
      destruct (gqueue_dequeue q) as [p q1]. cbn [fst snd] in *. subst p.
      destruct (IH q1 Hq1) as [Hrest Hleft]; [lia|].
      destruct (drain fuel q1) as [rest q2]. cbn [fst snd] in *.
      by rewrite Hlive, Hrest.
Qed.

Lemma submit_all_fresh (q : GDnsQueue) (addrs : list string) :
  queue_inv q → q_head q = 0 →
  NoDup (live q ++ addrs) →
  q_size q + Z.of_nat (length addrs) ≤ q_capacity q →
  let q' := (submit_all q addrs).1 in
  (submit_all q addrs).2 = addrs ∧
  q_size q' = q_size q + Z.of_nat (length addrs) ∧
  q_capacity q' = q_capacity q.
Proof.
  revert q. induction addrs as [|addr addrs IH]; intros q Hq Hhead Hnd Hroom.
  - simpl. split; [done|]. split; [lia|done].
  - cbn [submit_all length] in *.
    assert (addr ∉ scanned q) as Hnew.
    { rewrite <- live_scanned by done.
      apply NoDup_app in Hnd as (_ & Hdisj & _).
      intros Hin. apply (Hdisj _ Hin). apply list_elem_of_here. }
    assert (gqueue_full q = false) as Hfull by (apply gqueue_full_false; lia).
    rewrite dns_resolver_locked_admits by (done || lia).
    destruct (live_enqueue q addr Hq Hfull) as [_ Hlive].
    pose proof (queue_inv_enqueue q addr Hq) as Hq1.
    assert (q_head (gqueue_enqueue q addr).2 = 0 ∧
            q_size (gqueue_enqueue q addr).2 = q_size q + 1 ∧
            q_capacity (gqueue_enqueue q addr).2 = q_capacity q) as (Hh1 & Hs1 & Hc1)
      by (unfold gqueue_enqueue; by rewrite Hfull).
    destruct (IH (gqueue_enqueue q addr).2) as (Hadm & Hsz & Hcap); try done.
    + rewrite Hlive, <- app_assoc. done.
    + lia.
    + destruct (submit_all _ addrs) as [q2 rest]. cbn [fst snd] in *.
      subst rest. split; [done|]. split; [lia|congruence].
Qed.

(** ** The queue: claims *)

(** C10.  [gqueue_dequeue] on an empty queue returns [NULL] and leaves
    [head], [tail], [size] and the buffer as they were, and [gqueue_find]
    on an empty queue returns 0, whatever the item. *)
Theorem empty_queue_dequeue_find (q : GDnsQueue) :
  gqueue_empty q = true →
  gqueue_dequeue q = (None, q) ∧ ∀ item, gqueue_find q item = 0.
Proof.
  intros Hempty. unfold gqueue_dequeue, gqueue_find. by rewrite Hempty.
Qed.

Lemma empty_queue_dequeue_find_witness :
  gqueue_empty (mkGDnsQueue 2 1 0 3 ["10.0.0.1"; "10.0.0.2"; ""]) = true ∧
  gqueue_dequeue (mkGDnsQueue 2 1 0 3 ["10.0.0.1"; "10.0.0.2"; ""])
    = (None, mkGDnsQueue 2 1 0 3 ["10.0.0.1"; "10.0.0.2"; ""]) ∧
  ∀ item, gqueue_find (mkGDnsQueue 2 1 0 3 ["10.0.0.1"; "10.0.0.2"; ""]) item = 0.
Proof.
  split; [reflexivity|].
  apply (empty_queue_dequeue_find (mkGDnsQueue 2 1 0 3 ["10.0.0.1"; "10.0.0.2"; ""])).
  reflexivity.
Defined.

Lemma size_bounded_apply_op (q : GDnsQueue) (op : queue_op) :
  size_bounded q →
  size_bounded (apply_op q op) ∧ q_capacity (apply_op q op) = q_capacity q.
Proof.
  unfold size_bounded. intros [Hs0 Hs1].
  destruct op; simpl; try (split; [lia|done]).
  - unfold gqueue_enqueue.
    destruct (gqueue_full q) eqn:Hfull; simpl; [split; [lia|done]|].
    apply gqueue_full_false in Hfull. split; [lia|done].
  - unfold gqueue_dequeue.
    destruct (gqueue_empty q) eqn:Hempty; simpl; [split; [lia|done]|].
    apply gqueue_empty_false in Hempty. split; [lia|done].
Qed.

(** C8.  [0 ≤ size ≤ capacity] holds after [gqueue_init] with a positive
    capacity, every queue operation (enqueue, dequeue, find, size, empty,
    full) preserves it, and so it holds after any sequence of operations:
    enqueue never raises [size] above [capacity] and dequeue never lowers
    it below 0. *)
Theorem size_within_capacity (mem : GDnsQueue) (capacity : Z) (ops : list queue_op) :
  0 < capacity →
  size_bounded (gqueue_init mem capacity) ∧
  (∀ q op, size_bounded q → size_bounded (apply_op q op)) ∧
  size_bounded (foldl apply_op (gqueue_init mem capacity) ops).
Proof.
  intros Hc.
  assert (size_bounded (gqueue_init mem capacity)) as Hinit
    by (unfold size_bounded; simpl; lia).
  split; [done|]. split.
  - intros q op Hq. by apply size_bounded_apply_op.
  - revert Hinit. generalize (gqueue_init mem capacity).
    induction ops as [|op ops IH]; intros q Hq; simpl; [done|].
    apply IH. by apply size_bounded_apply_op.
Qed.

Lemma size_within_capacity_witness :
  0 < 2 ∧
  size_bounded (gqueue_init (fresh_mem 2) 2) ∧
  (∀ q op, size_bounded q → size_bounded (apply_op q op)) ∧
  size_bounded
    (foldl apply_op (gqueue_init (fresh_mem 2) 2)
       [OpDequeue; OpEnqueue "10.0.0.1"; OpEnqueue "10.0.0.2";
        OpEnqueue "10.0.0.3"; OpFind "10.0.0.1"; OpDequeue; OpFull;
        OpDequeue; OpDequeue; OpEmpty; OpSize]).
Proof.
  split; [lia|]. apply (size_within_capacity (fresh_mem 2) 2). lia.
Defined.

(** C5.  Dequeue order is admission order.  From any state the queue can
    reach, submit any addresses with no take in between (the worker is
    paused); draining then returns the entries that were already live,
    followed by the admitted addresses in the order of their admission,
    and leaves the queue empty.  From a fresh queue that is the list of
    admitted addresses itself. *)
Theorem fifo_order (q : GDnsQueue) (addrs : list string) :
  reachable q →
  let q' := (submit_all q addrs).1 in
  let admitted := (submit_all q addrs).2 in
  (drain (Z.to_nat (q_size q')) q').1 = live q ++ admitted ∧
  gqueue_empty (drain (Z.to_nat (q_size q')) q').2 = true.
Proof.
  intros Hq%reachable_inv. simpl.
  destruct (submit_all_live q addrs Hq) as [Hinv Hlive].
  assert (0 ≤ q_size (submit_all q addrs).1) as Hsize
    by (destruct Hinv as (_ & _ & _ & _ & [? ?] & _); done).
  destruct (drain_live (Z.to_nat (q_size (submit_all q addrs).1)) _ Hinv)
    as [Hdrain Hleft]; [lia|].
  by rewrite Hdrain, Hlive.
Qed.

Lemma fifo_order_witness :
  reachable (gqueue_init (fresh_mem 3) 3) ∧
  (drain 3 (submit_all (gqueue_init (fresh_mem 3) 3)
              ["10.0.0.1"; "10.0.0.2"; "10.0.0.3"]).1).1
    = ["10.0.0.1"; "10.0.0.2"; "10.0.0.3"] ∧
  gqueue_empty
    (drain 3 (submit_all (gqueue_init (fresh_mem 3) 3)
                ["10.0.0.1"; "10.0.0.2"; "10.0.0.3"]).1).2 = true.
Proof.
  assert (reachable (gqueue_init (fresh_mem 3) 3)) as Hr
    by (apply reachable_init; simpl; lia).
  split; [exact Hr|].
  exact (fifo_order (gqueue_init (fresh_mem 3) 3)
           ["10.0.0.1"; "10.0.0.2"; "10.0.0.3"] Hr).
Defined.

(** C6.  In a queue initialised with a capacity [C] that its buffer can
    hold, [C] submissions of distinct addresses with no take in between
    are all admitted and fill the queue; one more submission, of any
    address, is then rejected and leaves [head], [tail], [size] and the
    buffer as they were, both in [gqueue_enqueue] and in [dns_resolver]. *)
Theorem bounded_admission (mem : GDnsQueue) (capacity : Z)
    (addrs : list string) (extra : string) :
  0 < capacity → capacity ≤ Z.of_nat (length (q_buffer mem)) →
  NoDup addrs → Z.of_nat (length addrs) = capacity →
  let q := (submit_all (gqueue_init mem capacity) addrs).1 in
  (submit_all (gqueue_init mem capacity) addrs).2 = addrs ∧
  gqueue_full q = true ∧
  gqueue_enqueue q extra = (-1, q) ∧
  dns_resolver_locked q extra = (q, false) ∧
  ∀ s, gdns_queue s = q → mutex s = false → dns_resolver extra s = Some s.
Proof.
  intros Hc Hlen Hnd Hn. simpl.
  pose proof (queue_inv_init mem capacity Hc Hlen) as Hq.
  destruct (submit_all_fresh (gqueue_init mem capacity) addrs Hq)
    as (Hadm & Hsize & Hcap); [done| |simpl; lia|].
  { by rewrite live_empty. }
  simpl in Hsize, Hcap.
  assert (gqueue_full (submit_all (gqueue_init mem capacity) addrs).1 = true)
    as Hfull by (unfold gqueue_full; apply Z.eqb_eq; lia).
  assert (dns_resolver_locked (submit_all (gqueue_init mem capacity) addrs).1 extra
          = ((submit_all (gqueue_init mem capacity) addrs).1, false)) as Hrej
    by (apply dns_resolver_locked_rejects; left; lia).
  repeat split; try done.
  - unfold gqueue_enqueue. by rewrite Hfull.
  - intros [sq sa sm sw st] Hsq Hsm. simpl in *. subst.
    unfold dns_resolver. simpl. rewrite Hrej. by rewrite app_nil_r.
Qed.

Lemma bounded_admission_witness :
  0 < 2 ∧ 2 ≤ Z.of_nat (length (q_buffer (fresh_mem 2))) ∧
  NoDup ["10.0.0.1"; "10.0.0.2"] ∧
  Z.of_nat (length ["10.0.0.1"; "10.0.0.2"]) = 2 ∧
  let q := (submit_all (gqueue_init (fresh_mem 2) 2) ["10.0.0.1"; "10.0.0.2"]).1 in
  (submit_all (gqueue_init (fresh_mem 2) 2) ["10.0.0.1"; "10.0.0.2"]).2
    = ["10.0.0.1"; "10.0.0.2"] ∧
  gqueue_full q = true ∧
  gqueue_enqueue q "10.0.0.3" = (-1, q) ∧
  dns_resolver_locked q "10.0.0.3" = (q, false) ∧
  ∀ s, gdns_queue s = q → mutex s = false → dns_resolver "10.0.0.3" s = Some s.
Proof.
  assert (NoDup ["10.0.0.1"; "10.0.0.2"]) as Hnd
    by (apply (bool_decide_unpack _); vm_compute; exact I).
  split; [lia|]. split; [simpl; lia|]. split; [exact Hnd|]. split; [reflexivity|].
  apply (bounded_admission (fresh_mem 2) 2 ["10.0.0.1"; "10.0.0.2"] "10.0.0.3");
    [lia|simpl; lia|exact Hnd|reflexivity].
Defined.

(** C2.  [gqueue_find] compares the address with the first [size] slots
    of the buffer, wherever [head] stands.  In the queue of three slots
    reached by submitting 10.0.0.1 and 10.0.0.2 and taking once, the only
    live entry is 10.0.0.2, in slot 1, and the loop looks at slot 0 alone:
    submitting 10.0.0.2 again is admitted, so the address is live twice,
    and submitting 10.0.0.1, which is no longer live, is rejected. *)
Theorem find_scans_from_slot_zero :
  reachable wrapped_queue ∧
  gqueue_full wrapped_queue = false ∧
  live wrapped_queue = ["10.0.0.2"] ∧
  scanned wrapped_queue = ["10.0.0.1"] ∧
  (dns_resolver_locked wrapped_queue "10.0.0.2").2 = true ∧
  live (dns_resolver_locked wrapped_queue "10.0.0.2").1 = ["10.0.0.2"; "10.0.0.2"] ∧
  dns_resolver_locked wrapped_queue "10.0.0.1" = (wrapped_queue, false).
Proof.
  split.
  - unfold wrapped_queue.
    apply reachable_take, reachable_submit, reachable_submit, reachable_init;
      simpl; lia.
  - repeat split; reflexivity.
Qed.

(** ** The resolution function *)

Lemma reverse_host_eq (env : Netdb) (a : sockaddr) (length : Z) :
  reverse_host env a length =
    (Some (if (getnameinfo env a length (NI_NAMEREQD env)).1 =? 0
           then (getnameinfo env a length (NI_NAMEREQD env)).2
           else gai_strerror env (getnameinfo env a length (NI_NAMEREQD env)).1),
     [EvGetnameinfo a length (NI_NAMEREQD env)]).
Proof.
  unfold reverse_host, call, mbind, M_bind, mret, M_ret, alloc_string, truthy.
  destruct (getnameinfo env a length (NI_NAMEREQD env)) as [st h].
  cbn [fst snd]. by destruct (st =? 0).
Qed.

Lemma reverse_ip_nonempty (env : Netdb) (s : string) :
  s ≠ "" →
  reverse_ip env (Some s) =
    match parsed env s with
    | Some (a, length) =>
        ((reverse_host env a length).1,
         parse_attempts env s ++ (reverse_host env a length).2)
    | None => (None, parse_attempts env s)
    end.
Proof.
  intros Hs. destruct s as [|c s]; [done|].
  unfold reverse_ip, parsed, parse_attempts, call, mbind, M_bind, mret, M_ret.
  destruct (inet_pton env AF_INET (String c s)) as [r4 a4].
  cbn [fst snd]. destruct (1 =? r4).
  - by destruct (reverse_host _ _ _).
  - destruct (inet_pton env AF_INET6 (String c s)) as [r6 a6].
    cbn [fst snd]. destruct (1 =? r6); [|done].
    by destruct (reverse_host _ _ _).
Qed.


(** ** Steps of the threads *)

Lemma puts_app (t1 t2 : list event) : puts (t1 ++ t2) = puts t1 ++ puts t2.
Proof. apply omap_app. Qed.


Lemma step_not_worker (a : action) (s s' : GDns) :
  not_worker a → step a s = Some s' →
  worker s' = worker s ∧ mutex s' = mutex s ∧ puts (trace s') = puts (trace s).
Proof.
  destruct a as [addr|b|env]; simpl; [| |done].
  - intros _. unfold dns_resolver. destruct (mutex s) eqn:Hm; [done|].
    destruct (dns_resolver_locked _ _) as [q admitted].
    intros [= <-]. simpl. split; [done|]. split; [done|].
    rewrite puts_app. destruct admitted; simpl; by rewrite app_nil_r.
  - by intros _ [= <-].
Qed.

Lemma run_not_worker (sched : list action) (s s' : GDns) :
  Forall not_worker sched → run sched s = Some s' →
  worker s' = worker s ∧ mutex s' = mutex s ∧ puts (trace s') = puts (trace s).
Proof.
  intros Hall. revert s. induction Hall as [|a sched Ha _ IH]; intros s; simpl.
  - by intros [= <-].
  - destruct (step a s) as [s1|] eqn:Hstep; simpl; [|done].
    intros Hrun. destruct (step_not_worker _ _ _ Ha Hstep) as (Hw & Hm & Hp).
    destruct (IH _ Hrun) as (Hw' & Hm' & Hp'). split; [|split]; congruence.
Qed.

Lemma worker_resolve (env : Netdb) (s : GDns) (ip : option Z) :
  worker s = Resolving ip →
  dns_worker_step env s =
    Some {| gdns_queue := gdns_queue s;
            active_gdns := active_gdns s;
            mutex := mutex s;
            worker := Publishing ip (reverse_ip env (deref (gdns_queue s) ip)).1;
            trace := trace s ++ (reverse_ip env (deref (gdns_queue s) ip)).2 |}.
Proof.
  intros Hw. unfold dns_worker_step. rewrite Hw.
  by destruct (reverse_ip _ _).
Qed.


Lemma stopped_forever (sched : list action) (s s' : GDns) :
  worker s = Stopped → mutex s = true → run sched s = Some s' →
  worker s' = Stopped ∧ mutex s' = true ∧ trace s' = trace s.
Proof.
  revert s. induction sched as [|a sched IH]; intros s Hw Hm; simpl.
  - by intros [= <-].
  - destruct (step a s) as [s1|] eqn:Hstep; simpl; [|done].
    intros Hrun.
    assert (worker s1 = Stopped ∧ mutex s1 = true ∧ trace s1 = trace s)
      as (Hw1 & Hm1 & Ht1).
    { destruct a as [addr|b|env]; simpl in Hstep.
      - unfold dns_resolver in Hstep. by rewrite Hm in Hstep.
      - by injection Hstep as <-.
      - unfold dns_worker_step in Hstep. by rewrite Hw in Hstep. }
    destruct (IH _ Hw1 Hm1 Hrun) as (? & ? & ?). split; [|split]; congruence.
Qed.


(** ** The worker: claims *)

(** C4.  When the worker takes the mutex again after [reverse_ip] has
    returned and finds [active_gdns] cleared, it drops the outcome, a
    resolved host name included: nothing is added to the trace, so no put
    reaches the hostname store.  The worker leaves its loop, has no
    further step, and whatever the other threads do afterwards it stays
    stopped and the trace stays as it was. *)
Theorem shutdown_discards_outcome (env : Netdb) (s : GDns)
    (ip : option Z) (host : option string) :
  worker s = Publishing ip host → mutex s = false → active_gdns s = false →
  ∃ s', dns_worker_step env s = Some s' ∧
        worker s' = Stopped ∧ trace s' = trace s ∧
        (∀ env', dns_worker_step env' s' = None) ∧
        ∀ sched s'', run sched s' = Some s'' →
                     worker s'' = Stopped ∧ trace s'' = trace s.
Proof.
  intros Hw Hm Ha.
  eexists. split.
  { unfold dns_worker_step. rewrite Hw, Hm, Ha. simpl. reflexivity. }
  simpl. split; [done|]. split; [done|]. split.
  - intros env'. done.
  - intros sched s'' Hrun.
    apply stopped_forever in Hrun as (? & ? & ?); done.
Qed.

Lemma shutdown_discards_outcome_witness :
  let s := {| gdns_queue := gqueue_init (fresh_mem 2) 2;
              active_gdns := false;
              mutex := false;
              worker := Publishing (Some 0) (Some "example.com");
              trace := [EvCondBroadcast not_empty] |} in
  worker s = Publishing (Some 0) (Some "example.com") ∧
  mutex s = false ∧ active_gdns s = false ∧
  ∃ s', dns_worker_step stub_netdb s = Some s' ∧
        worker s' = Stopped ∧ trace s' = trace s ∧
        (∀ env', dns_worker_step env' s' = None) ∧
        ∀ sched s'', run sched s' = Some s'' →
                     worker s'' = Stopped ∧ trace s'' = trace s.
Proof.
  intros s. split; [reflexivity|]. split; [reflexivity|]. split; [reflexivity|].
  apply (shutdown_discards_outcome stub_netdb s (Some 0) (Some "example.com"));
    reflexivity.
Defined.




(** What C7 leaves open.  A put can still carry an unparseable string as
    its key when the slot that the worker points to is written again
    between resolution and publication: the worker resolves 93.184.216.34
    from slot 0, "not-an-ip" is then admitted into slot 0, and the
    name found is stored under "not-an-ip". *)
Example unparseable_key_through_reused_slot :
  puts <$> (trace <$> run [ADnsResolver "93.184.216.34"; ADnsResolver "10.0.0.2";
                           AWorker stub_netdb; AWorker stub_netdb;
                           ADnsResolver "not-an-ip"; AWorker stub_netdb]
                        (started 2))
    = Some [(Some "not-an-ip", "example.com")].
Proof. reflexivity. Qed.

(** C1, as the code has it.  When the address parses and the reverse lookup fails
    with status [st], [reverse_host] returns the resolver's message
    [gai_strerror (st)] as a string, not [NULL]; the worker that finds
    [active_gdns] still set when it takes the mutex again passes that
    message to [ht_insert_hostname] as the host name, under the address
    then held by the slot (the address itself when no other thread ran in
    between). *)
Theorem failed_lookup_publishes_error_text (env : Netdb) (str : string)
    (a : sockaddr) (length st : Z) (h : string)
    (s : GDns) (p : Z) (others : list action) (s1 : GDns) :
  str ≠ "" →
  parsed env str = Some (a, length) →
  getnameinfo env a length (NI_NAMEREQD env) = (st, h) → st ≠ 0 →
  worker s = Resolving (Some p) →
  buffer_get (q_buffer (gdns_queue s)) p = str →
  mutex s = false →
  Forall not_worker others →
  run (AWorker env :: others) s = Some s1 →
  active_gdns s1 = true →
  reverse_ip env (Some str)
    = (Some (gai_strerror env st),
       parse_attempts env str ++ [EvGetnameinfo a length (NI_NAMEREQD env)]) ∧
  (others = [] → buffer_get (q_buffer (gdns_queue s1)) p = str) ∧
  ∀ env', ∃ s2,
    dns_worker_step env' s1 = Some s2 ∧
    worker s2 = Waiting ∧
    trace s2 = trace s1 ++
      [EvHtInsertHostname (Some (buffer_get (q_buffer (gdns_queue s1)) p))
         (gai_strerror env st);
       EvCondSignal not_full].
Proof.
  intros Hs Hp Hgni Hst Hw Hslot Hm Hothers Hrun Hactive.
  assert (reverse_ip env (Some str)
          = (Some (gai_strerror env st),
             parse_attempts env str ++ [EvGetnameinfo a length (NI_NAMEREQD env)]))
    as Hrev.
  { rewrite reverse_ip_nonempty, Hp, reverse_host_eq, Hgni by done.
    cbn [fst snd]. by rewrite (proj2 (Z.eqb_neq st 0) Hst). }
  split; [done|].
  cbn [run step] in Hrun. rewrite (worker_resolve env s _ Hw) in Hrun.
  cbn [mbind option_bind] in Hrun. split.
  - intros ->. simpl in Hrun. by injection Hrun as <-.
  - apply run_not_worker in Hrun as (Hw1 & Hm1 & _); [|done].
    simpl in Hw1, Hm1. rewrite Hslot, Hrev in Hw1. simpl in Hw1.
    intros env'. eexists. split.
    { unfold dns_worker_step. rewrite Hw1, Hm1, Hm, Hactive. simpl. reflexivity. }
    done.
Qed.

Lemma failed_lookup_publishes_error_text_witness :
  let s := {| gdns_queue := mkGDnsQueue 1 0 0 2 ["10.0.0.1"; ""];
              active_gdns := true;
              mutex := false;
              worker := Resolving (Some 0);
              trace := [EvCondBroadcast not_empty] |} in
  let s1 := {| gdns_queue := mkGDnsQueue 1 0 0 2 ["10.0.0.1"; ""];
               active_gdns := true;
               mutex := false;
               worker := Publishing (Some 0) (Some "Name or service not known");
               trace := [EvCondBroadcast not_empty;
                         EvInetPton AF_INET "10.0.0.1";
                         EvGetnameinfo (mkSockaddr AF_INET [10; 0; 0; 1]) 16 8] |} in
  "10.0.0.1" ≠ "" ∧
  parsed stub_netdb "10.0.0.1" = Some (mkSockaddr AF_INET [10; 0; 0; 1], 16) ∧
  getnameinfo stub_netdb (mkSockaddr AF_INET [10; 0; 0; 1]) 16 (NI_NAMEREQD stub_netdb)
    = (-2, "") ∧
  -2 ≠ 0 ∧
  run [AWorker stub_netdb] s = Some s1 ∧
  ∀ env', ∃ s2,
    dns_worker_step env' s1 = Some s2 ∧
    worker s2 = Waiting ∧
    trace s2 = trace s1 ++
      [EvHtInsertHostname (Some "10.0.0.1") "Name or service not known";
       EvCondSignal not_full].
Proof.
  intros s s1.
  assert ("10.0.0.1" ≠ "") as Hne by discriminate.
  assert (-2 ≠ 0) as Hst by lia.
  split; [exact Hne|]. split; [reflexivity|]. split; [reflexivity|].
  split; [exact Hst|]. split; [reflexivity|].
  apply (failed_lookup_publishes_error_text stub_netdb "10.0.0.1"
           (mkSockaddr AF_INET [10; 0; 0; 1]) 16 (-2) "" s 0 [] s1);
    try reflexivity; [exact Hne|exact Hst|constructor].
Defined.

(** Against C1: 10.0.0.1 parses as an IPv4 address, its reverse
    lookup fails, and the worker that processes it puts the resolver's
    message into the hostname store under that address. *)
Lemma failed_lookup_is_published :
  parsed stub_netdb "10.0.0.1" = Some (mkSockaddr AF_INET [10; 0; 0; 1], 16) ∧
  (getnameinfo stub_netdb (mkSockaddr AF_INET [10; 0; 0; 1]) 16 8).1 = -2 ∧
  trace <$> run [ADnsResolver "10.0.0.1";
                 AWorker stub_netdb; AWorker stub_netdb; AWorker stub_netdb]
              (started 2)
    = Some [EvCondBroadcast not_empty;
            EvInetPton AF_INET "10.0.0.1";
            EvGetnameinfo (mkSockaddr AF_INET [10; 0; 0; 1]) 16 8;
            EvHtInsertHostname (Some "10.0.0.1") "Name or service not known";
            EvCondSignal not_full].
Proof. repeat split; reflexivity. Qed.


(** The slot of the address just taken from a full queue is the slot that
    the next [gqueue_enqueue] writes. *)
Lemma dequeue_slot_reused (q : GDnsQueue) (item : string) :
  queue_inv q → gqueue_full q = true →
  let q1 := (gqueue_dequeue q).2 in
  (gqueue_dequeue q).1 = Some (q_head q) ∧
  (gqueue_enqueue q1 item).1 = 0 ∧
  deref (gqueue_enqueue q1 item).2 (Some (q_head q)) = Some item.
Proof.
  intros (Hc & Hlen & Hh & Ht & [Hs0 Hs1] & Heq) Hfull. simpl.
  unfold gqueue_full in Hfull. apply Z.eqb_eq in Hfull.
  assert (gqueue_empty q = false) as Hempty by (apply gqueue_empty_false; lia).
  unfold gqueue_dequeue. rewrite Hempty. cbn [fst snd].
  split; [done|].
  unfold gqueue_enqueue, gqueue_full. cbn [q_size q_capacity q_tail q_buffer].
  destruct (Z.eqb_spec (q_size q - 1) (q_capacity q)) as [|_]; [lia|].
  cbn [fst snd]. split; [done|].
  unfold deref. cbn [fmap option_fmap option_map q_buffer]. f_equal.
  assert (Z.rem (q_tail q + 1) (q_capacity q) = q_head q) as ->.
  { rewrite Z.rem_mod_nonneg, Heq, Hfull by lia.
    rewrite <- (Z.mul_1_l (q_capacity q)) at 1.
    rewrite Z_mod_plus_full. apply Z.mod_small. lia. }
  apply buffer_get_set_eq. lia.
Qed.

(** C3.  [gqueue_dequeue] returns a pointer to the head slot, not a copy
    of its string.  In a queue of two slots holding 10.0.0.1 and 10.0.0.2
    the worker takes 10.0.0.1 and holds a pointer to slot 0; a submission
    of 93.184.216.34 made before the worker resolves is admitted into that
    very slot, and the worker then parses, looks up and publishes
    93.184.216.34: the address it took is never resolved. *)
Theorem taken_address_is_overwritten :
  (λ s, (worker s, deref (gdns_queue s) (Some 0)))
    <$> run fill_and_take (started 2)
    = Some (Resolving (Some 0), Some "10.0.0.1") ∧
  (λ s, (worker s, deref (gdns_queue s) (Some 0)))
    <$> run (fill_and_take ++ [ADnsResolver "93.184.216.34"]) (started 2)
    = Some (Resolving (Some 0), Some "93.184.216.34") ∧
  trace <$> run (fill_and_take ++
                 [ADnsResolver "93.184.216.34";
                  AWorker stub_netdb; AWorker stub_netdb]) (started 2)
    = Some [EvCondBroadcast not_empty; EvCondBroadcast not_empty;
            EvCondBroadcast not_empty;
            EvInetPton AF_INET "93.184.216.34";
            EvGetnameinfo (mkSockaddr AF_INET [93; 184; 216; 34]) 16 8;
            EvHtInsertHostname (Some "93.184.216.34") "example.com";
            EvCondSignal not_full].
Proof. repeat split; reflexivity. Qed.

(** ** Start-up: claims *)

(** C9.  If the initialisation of either condition variable or of the
    mutex returns an error, [gdns_init] does not return: it ends in
    [FATAL].  If the creation of the worker thread returns an error,
    [gdns_thread_create] ends in [FATAL] with that code.  When every call
    succeeds both functions return, with the queue initialised and the
    worker waiting. *)
Theorem startup_failure_is_fatal (QUEUE_SIZE : Z) (pt : Pthread)
    (mem q : GDnsQueue) :
  (pthread_cond_init pt not_empty ≠ 0 ∨
   pthread_cond_init pt not_full ≠ 0 ∨
   pthread_mutex_init pt ≠ 0 →
   ∃ fmt, gdns_init QUEUE_SIZE pt mem = Aborts fmt []) ∧
  (pthread_create pt ≠ 0 →
   gdns_thread_create pt q
     = Aborts "Return code from pthread_create(): %d" [pthread_create pt]) ∧
  (pthread_cond_init pt not_empty = 0 →
   pthread_cond_init pt not_full = 0 →
   pthread_mutex_init pt = 0 →
   gdns_init QUEUE_SIZE pt mem = Returns (gqueue_init mem QUEUE_SIZE)) ∧
  (pthread_create pt = 0 →
   gdns_thread_create pt q
     = Returns {| gdns_queue := q; active_gdns := true; mutex := false;
                  worker := Waiting; trace := [] |}).
Proof.
  unfold gdns_init, gdns_thread_create, FATAL, truthy.
  repeat split.
  - intros Hfail.
    destruct (Z.eqb_spec (pthread_cond_init pt not_empty) 0); simpl; [|by eexists].
    destruct (Z.eqb_spec (pthread_cond_init pt not_full) 0); simpl; [|by eexists].
    destruct (Z.eqb_spec (pthread_mutex_init pt) 0); simpl; [|by eexists].
    destruct Hfail as [?|[?|?]]; done.
  - intros Hfail. by rewrite (proj2 (Z.eqb_neq _ _) Hfail).
  - by intros -> -> ->.
  - by intros ->.
Qed.

Lemma startup_failure_is_fatal_witness :
  (pthread_cond_init pthread_failing not_empty ≠ 0 ∨
   pthread_cond_init pthread_failing not_full ≠ 0 ∨
   pthread_mutex_init pthread_failing ≠ 0) ∧
  pthread_create pthread_failing ≠ 0 ∧
  (∃ fmt, gdns_init 2 pthread_failing (fresh_mem 2) = Aborts fmt []) ∧
  gdns_thread_create pthread_failing (gqueue_init (fresh_mem 2) 2)
    = Aborts "Return code from pthread_create(): %d" [11] ∧
  gdns_init 2 pthread_ok (fresh_mem 2) = Returns (gqueue_init (fresh_mem 2) 2) ∧
  gdns_thread_create pthread_ok (gqueue_init (fresh_mem 2) 2) = Returns (started 2).
Proof.
  assert (pthread_cond_init pthread_failing not_empty ≠ 0 ∨
          pthread_cond_init pthread_failing not_full ≠ 0 ∨
          pthread_mutex_init pthread_failing ≠ 0) as Hinit
    by (right; right; simpl; lia).
  assert (pthread_create pthread_failing ≠ 0) as Hcreate by (simpl; lia).
  destruct (startup_failure_is_fatal 2 pthread_failing (fresh_mem 2)
              (gqueue_init (fresh_mem 2) 2)) as (Hf1 & Hf2 & _ & _).
  destruct (startup_failure_is_fatal 2 pthread_ok (fresh_mem 2)
              (gqueue_init (fresh_mem 2) 2)) as (_ & _ & Hok1 & Hok2).
  split; [exact Hinit|]. split; [exact Hcreate|].
  split; [exact (Hf1 Hinit)|]. split; [exact (Hf2 Hcreate)|].
  split; [apply Hok1; reflexivity|apply Hok2; reflexivity].
Defined.

(** ** Scenarios *)

(** An address with a name is resolved and published once. *)
Example resolve_and_publish :
  trace <$> run [ADnsResolver "93.184.216.34";
                 AWorker stub_netdb; AWorker stub_netdb; AWorker stub_netdb]
              (started 2)
    = Some [EvCondBroadcast not_empty;
            EvInetPton AF_INET "93.184.216.34";
            EvGetnameinfo (mkSockaddr AF_INET [93; 184; 216; 34]) 16 8;
            EvHtInsertHostname (Some "93.184.216.34") "example.com";
            EvCondSignal not_full].
Proof. reflexivity. Qed.

(** A string that is no address is admitted, parsed twice and dropped. *)
Example not_an_ip_end_to_end :
  trace <$> run [ADnsResolver "not-an-ip";
                 AWorker stub_netdb; AWorker stub_netdb; AWorker stub_netdb]
              (started 2)
    = Some [EvCondBroadcast not_empty;
            EvInetPton AF_INET "not-an-ip";
            EvInetPton AF_INET6 "not-an-ip";
            EvCondSignal not_full].
Proof. reflexivity. Qed.

(** [active_gdns] is cleared while the worker resolves: the name found is
    dropped and the worker stops. *)
Example shutdown_during_resolution :
  (λ s, (worker s, trace s))
    <$> run [ADnsResolver "93.184.216.34"; AWorker stub_netdb;
             ASetActive false; AWorker stub_netdb; AWorker stub_netdb]
          (started 2)
    = Some (Stopped,
            [EvCondBroadcast not_empty;
             EvInetPton AF_INET "93.184.216.34";
             EvGetnameinfo (mkSockaddr AF_INET [93; 184; 216; 34]) 16 8]).
Proof. reflexivity. Qed.

(** The same address submitted twice before it is taken is queued once. *)
Example deduplication :
  submit_all (gqueue_init (fresh_mem 3) 3) ["10.0.0.1"; "10.0.0.1"]
    = (mkGDnsQueue 0 0 1 3 ["10.0.0.1"; ""; ""], ["10.0.0.1"]).
Proof. reflexivity. Qed.

(** * Further properties of gdns.c *)

(** ** The queue under any sequence of operations *)

Lemma apply_op_frame (q : GDnsQueue) (op : queue_op) :
  q_capacity (apply_op q op) = q_capacity q ∧
  length (q_buffer (apply_op q op)) = length (q_buffer q).
Proof.
  destruct op; simpl; try done.
  - unfold gqueue_enqueue. destruct (gqueue_full q); simpl; [done|].
    by rewrite length_buffer_set.
  - unfold gqueue_dequeue. by destruct (gqueue_empty q).
Qed.

Lemma queue_inv_apply_op (q : GDnsQueue) (op : queue_op) :
  queue_inv q → queue_inv (apply_op q op).
Proof.
  intros Hq. destruct op; simpl; auto using queue_inv_enqueue, queue_inv_dequeue.
Qed.

Lemma wrapped_queue_inv : queue_inv wrapped_queue.
Proof.
  apply reachable_inv. unfold wrapped_queue.
  apply reachable_take, reachable_submit, reachable_submit, reachable_init;
    simpl; lia.
Qed.

(** X1.  After [gqueue_init] with a positive capacity that the buffer can
    hold, any sequence of queue operations keeps the representation
    invariant ([head] and [tail] stay inside the buffer, [size] stays
    between 0 and the capacity, and [tail + 1] and [head + size] agree
    modulo the capacity), and changes neither the capacity nor the number
    of slots. *)
Theorem queue_invariant_kept (mem : GDnsQueue) (capacity : Z) (ops : list queue_op) :
  0 < capacity → capacity ≤ Z.of_nat (length (q_buffer mem)) →
  let q := foldl apply_op (gqueue_init mem capacity) ops in
  queue_inv q ∧
  q_capacity q = capacity ∧
  length (q_buffer q) = length (q_buffer mem).
Proof.
  intros Hc Hlen. simpl.
  pose proof (queue_inv_init mem capacity Hc Hlen) as Hinit.
  assert (q_capacity (gqueue_init mem capacity) = capacity ∧
          length (q_buffer (gqueue_init mem capacity)) = length (q_buffer mem))
    as Hframe by done.
  revert Hinit Hframe. generalize (gqueue_init mem capacity).
  induction ops as [|op ops IH]; intros q Hq [Hcap Hbuf]; simpl; [done|].
  apply IH; [by apply queue_inv_apply_op|].
  destruct (apply_op_frame q op) as [-> ->]. done.
Qed.

Lemma queue_invariant_kept_witness :
  0 < 2 ∧ 2 ≤ Z.of_nat (length (q_buffer (fresh_mem 3))) ∧
  let q := foldl apply_op (gqueue_init (fresh_mem 3) 2)
             [OpEnqueue "10.0.0.1"; OpDequeue; OpEnqueue "10.0.0.2";
              OpEnqueue "10.0.0.3"; OpEnqueue "10.0.0.4"; OpDequeue] in
  queue_inv q ∧ q_capacity q = 2 ∧ length (q_buffer q) = length (q_buffer (fresh_mem 3)).
Proof.
  split; [lia|]. split; [simpl; lia|].
  apply (queue_invariant_kept (fresh_mem 3) 2); [lia|simpl; lia].
Defined.

(** X2.  [gqueue_find] returns 1 exactly when the item equals one of the
    first [size] slots of the buffer and 0 otherwise; as long as [head] is
    0, those slots are the live entries. *)
Theorem gqueue_find_first_slots (q : GDnsQueue) (item : string) :
  (gqueue_find q item = 1 ↔ item ∈ scanned q) ∧
  (gqueue_find q item = 0 ↔ item ∉ scanned q) ∧
  (queue_inv q → q_head q = 0 → scanned q = live q).
Proof.
  rewrite gqueue_find_spec. split; [|split].
  - case_bool_decide; split; done.
  - case_bool_decide; split; done.
  - intros Hq Hhead. symmetry. by apply live_scanned.
Qed.

(** X3.  On a queue that satisfies the invariant, [gqueue_enqueue] either
    finds the queue full, returns -1 and changes nothing, or returns 0,
    adds the item behind the live entries and raises [size] by one; the
    entries already live keep their order. *)
Theorem gqueue_enqueue_appends (q : GDnsQueue) (item : string) :
  queue_inv q →
  (gqueue_full q = true ∧ gqueue_enqueue q item = (-1, q)) ∨
  (gqueue_full q = false ∧
   (gqueue_enqueue q item).1 = 0 ∧
   live (gqueue_enqueue q item).2 = live q ++ [item] ∧
   q_size (gqueue_enqueue q item).2 = q_size q + 1).
Proof.
  intros Hq. destruct (gqueue_full q) eqn:Hfull.
  - left. split; [done|]. unfold gqueue_enqueue. by rewrite Hfull.
  - right. split; [done|].
    destruct (live_enqueue q item Hq Hfull) as [Hret Hlive].
    split; [done|]. split; [done|].
    unfold gqueue_enqueue. by rewrite Hfull.
Qed.

Lemma gqueue_enqueue_appends_witness :
  queue_inv wrapped_queue ∧
  ((gqueue_full wrapped_queue = true ∧
    gqueue_enqueue wrapped_queue "10.0.0.3" = (-1, wrapped_queue)) ∨
   (gqueue_full wrapped_queue = false ∧
    (gqueue_enqueue wrapped_queue "10.0.0.3").1 = 0 ∧
    live (gqueue_enqueue wrapped_queue "10.0.0.3").2
      = live wrapped_queue ++ ["10.0.0.3"] ∧
    q_size (gqueue_enqueue wrapped_queue "10.0.0.3").2 = q_size wrapped_queue + 1)).
Proof.
  pose proof wrapped_queue_inv as Hq.
  split; [exact Hq|].
  exact (gqueue_enqueue_appends wrapped_queue "10.0.0.3" Hq).
Defined.

(** X4.  On a queue that satisfies the invariant, [gqueue_dequeue] returns
    [NULL] and changes nothing when there is no live entry; otherwise it
    returns a pointer to the oldest live entry and the remaining entries
    stay live in their order. *)
Theorem gqueue_dequeue_pops (q : GDnsQueue) :
  queue_inv q →
  match live q with
  | [] => gqueue_dequeue q = (None, q)
  | oldest :: rest =>
      ∃ p q', gqueue_dequeue q = (Some p, q') ∧
              buffer_get (q_buffer q') p = oldest ∧
              live q' = rest ∧
              q_size q' = q_size q - 1
  end.
Proof.
  intros Hq. destruct (gqueue_empty q) eqn:Hempty.
  - unfold gqueue_empty in Hempty. apply Z.eqb_eq in Hempty.
    rewrite live_empty by lia.
    unfold gqueue_dequeue, gqueue_empty. by rewrite Hempty.
  - destruct (live_dequeue q Hq Hempty) as [Hp Hlive].
    pose proof (dequeue_size q Hempty) as Hsize.
    rewrite Hlive. destruct (gqueue_dequeue q) as [p q']. simpl in *.
    subst p. by exists (q_head q), q'.
Qed.

Lemma gqueue_dequeue_pops_witness :
  queue_inv wrapped_queue ∧
  ∃ p q', gqueue_dequeue wrapped_queue = (Some p, q') ∧
          buffer_get (q_buffer q') p = "10.0.0.2" ∧
          live q' = [] ∧
          q_size q' = q_size wrapped_queue - 1.
Proof.
  pose proof wrapped_queue_inv as Hq.
  split; [exact Hq|].
  exact (gqueue_dequeue_pops wrapped_queue Hq).
Defined.

Lemma play_step (q : GDnsQueue) (op : queue_op) :
  queue_inv q →
  live q ++ accepted q op = returned q op ++ live (apply_op q op).
Proof.
  intros Hq. destruct op as [item| | | | |]; simpl; try by rewrite app_nil_r.
  - destruct (gqueue_full q) eqn:Hfull.
    + unfold gqueue_enqueue. rewrite Hfull. simpl. by rewrite app_nil_r.
    + destruct (live_enqueue q item Hq Hfull) as [-> ->]. done.
  - destruct (gqueue_empty q) eqn:Hempty.
    + unfold gqueue_dequeue. rewrite Hempty. simpl. by rewrite app_nil_r.
    + destruct (live_dequeue q Hq Hempty) as [Hp Hlive].
      rewrite Hlive. destruct (gqueue_dequeue q) as [p q1]. simpl in *.
      subst p. by rewrite app_nil_r.
Qed.

(** X6.  First in, first out under any use.  Run any sequence of queue
    operations on a queue that satisfies the invariant: the entries that
    were live at the start followed by the items accepted since are the
    strings returned so far followed by the entries still live.  So the
    strings come out in the order in which they went in, none is lost and
    none is returned twice. *)
Theorem fifo_under_any_use (q : GDnsQueue) (ops : list queue_op) :
  queue_inv q →
  live q ++ (play q ops).1.1 = (play q ops).1.2 ++ live (play q ops).2 ∧
  queue_inv (play q ops).2.
Proof.
  revert q. induction ops as [|op ops IH]; intros q Hq.
  - simpl. by rewrite app_nil_r.
  - cbn [play].
    destruct (IH (apply_op q op) (queue_inv_apply_op q op Hq)) as [Hfifo Hinv].
    destruct (play (apply_op q op) ops) as [[ins outs] q']. cbn [fst snd] in *.
    split; [|done].
    rewrite app_assoc, (play_step q op Hq), <- !app_assoc. by rewrite Hfifo.
Qed.

Lemma fifo_under_any_use_witness :
  queue_inv wrapped_queue ∧
  play wrapped_queue
    [OpEnqueue "10.0.0.3"; OpDequeue; OpEnqueue "10.0.0.4"; OpEnqueue "10.0.0.5";
     OpEnqueue "10.0.0.6"; OpDequeue; OpFind "10.0.0.4"; OpDequeue]
    = (["10.0.0.3"; "10.0.0.4"; "10.0.0.5"],
       ["10.0.0.2"; "10.0.0.3"; "10.0.0.4"],
       mkGDnsQueue 1 1 1 3 ["10.0.0.4"; "10.0.0.5"; "10.0.0.3"]) ∧
  live wrapped_queue ++ ["10.0.0.3"; "10.0.0.4"; "10.0.0.5"]
    = ["10.0.0.2"; "10.0.0.3"; "10.0.0.4"]
      ++ live (mkGDnsQueue 1 1 1 3 ["10.0.0.4"; "10.0.0.5"; "10.0.0.3"]).
Proof.
  pose proof wrapped_queue_inv as Hq.
  split; [exact Hq|]. split; [reflexivity|].
  exact (proj1 (fifo_under_any_use wrapped_queue
                  [OpEnqueue "10.0.0.3"; OpDequeue; OpEnqueue "10.0.0.4";
                   OpEnqueue "10.0.0.5"; OpEnqueue "10.0.0.6"; OpDequeue;
                   OpFind "10.0.0.4"; OpDequeue] Hq)).
Defined.

(** ** Submissions before the first take *)

Lemma submit_all_full (q : GDnsQueue) (addrs : list string) :
  gqueue_full q = true → submit_all q addrs = (q, []).
Proof.
  intros Hfull. induction addrs as [|addr addrs IH]; [done|].
  cbn [submit_all]. rewrite dns_resolver_locked_rejects.
  - by rewrite IH.
  - left. unfold gqueue_full in Hfull. by apply Z.eqb_eq in Hfull.
Qed.

Lemma submit_all_dedup (q : GDnsQueue) (addrs : list string) :
  queue_inv q → q_head q = 0 → NoDup (live q) →
  let q' := (submit_all q addrs).1 in
  let admitted := (submit_all q addrs).2 in
  live q' = live q ++ admitted ∧
  NoDup (live q') ∧
  (∀ a, a ∈ admitted → a ∈ addrs) ∧
  (gqueue_full q' = false → ∀ a, a ∈ addrs → a ∈ live q').
Proof.
  revert q. induction addrs as [|addr addrs IH]; intros q Hq Hhead Hnd; simpl.
  - rewrite app_nil_r. split; [done|]. split; [done|]. split.
    + intros a Ha. by apply not_elem_of_nil in Ha.
    + intros _ a Ha. by apply not_elem_of_nil in Ha.
  - destruct (decide (q_size q = q_capacity q)) as [Hfull|Hroom].
    { rewrite dns_resolver_locked_rejects by (by left).
      assert (gqueue_full q = true) as Hf by (unfold gqueue_full; by apply Z.eqb_eq).
      rewrite (submit_all_full q addrs Hf). simpl.
      rewrite app_nil_r. split; [done|]. split; [done|]. split.
      - intros a Ha. by apply not_elem_of_nil in Ha.
      - intros Hnf. congruence. }
    destruct (decide (addr ∈ scanned q)) as [Hin|Hnew].
    + rewrite dns_resolver_locked_rejects by (by right).
      destruct (IH q Hq Hhead Hnd) as (Hlive & Hnd' & Hsub & Hall).
      destruct (submit_all q addrs) as [q' admitted]. simpl in *.
      split; [done|]. split; [done|]. split.
      * intros a Ha. apply elem_of_cons. right. by apply Hsub.
      * intros Hnf a [->|Ha]%elem_of_cons; [|by apply Hall].
        rewrite Hlive, elem_of_app. left. by rewrite live_scanned.
    + rewrite dns_resolver_locked_admits by done.
      assert (gqueue_full q = false) as Hnf by (by apply gqueue_full_false).
      destruct (live_enqueue q addr Hq Hnf) as [_ Hlive1].
      assert (q_head (gqueue_enqueue q addr).2 = 0) as Hhead1
        by (unfold gqueue_enqueue; by rewrite Hnf).
      destruct (IH (gqueue_enqueue q addr).2) as (Hlive & Hnd' & Hsub & Hall).
      { by apply queue_inv_enqueue. }
      { done. }
      { rewrite Hlive1. apply NoDup_app. split; [done|]. split.
        - intros a Ha ->%list_elem_of_singleton. apply Hnew.
          by rewrite <- live_scanned.
        - apply NoDup_singleton. }
      destruct (submit_all _ addrs) as [q' admitted]. simpl in *.
      split; [|split; [done|split]].
      * by rewrite Hlive, Hlive1, <- app_assoc.
      * intros a [->|Ha]%elem_of_cons; [apply list_elem_of_here|].
        apply elem_of_cons. right. by apply Hsub.
      * intros Hnf' a [->|Ha]%elem_of_cons; [|by apply Hall].
        rewrite Hlive, Hlive1, !elem_of_app. left. right.
        apply list_elem_of_here.
Qed.

(** X7.  Deduplication before the first take.  Submit any addresses to a
    freshly initialised queue with no take in between: the live entries
    are the admitted addresses in order, no address is live twice, only
    submitted addresses are admitted, and unless the queue has filled up
    every submitted address is live. *)
Theorem no_duplicate_before_first_take (mem : GDnsQueue) (capacity : Z)
    (addrs : list string) :
  0 < capacity → capacity ≤ Z.of_nat (length (q_buffer mem)) →
  let q := (submit_all (gqueue_init mem capacity) addrs).1 in
  let admitted := (submit_all (gqueue_init mem capacity) addrs).2 in
  live q = admitted ∧
  NoDup (live q) ∧
  (∀ a, a ∈ admitted → a ∈ addrs) ∧
  (gqueue_full q = false → ∀ a, a ∈ addrs → a ∈ live q).
Proof.
  intros Hc Hlen.
  pose proof (queue_inv_init mem capacity Hc Hlen) as Hq.
  apply (submit_all_dedup (gqueue_init mem capacity) addrs Hq); [done|].
  rewrite live_empty by (simpl; lia). apply NoDup_nil_2.
Qed.

Lemma no_duplicate_before_first_take_witness :
  0 < 3 ∧ 3 ≤ Z.of_nat (length (q_buffer (fresh_mem 3))) ∧
  let q := (submit_all (gqueue_init (fresh_mem 3) 3)
              ["10.0.0.1"; "10.0.0.2"; "10.0.0.1"; "10.0.0.2"]).1 in
  live q = ["10.0.0.1"; "10.0.0.2"] ∧
  NoDup (live q) ∧
  (∀ a, a ∈ ["10.0.0.1"; "10.0.0.2"]
        → a ∈ ["10.0.0.1"; "10.0.0.2"; "10.0.0.1"; "10.0.0.2"]) ∧
  (gqueue_full q = false
   → ∀ a, a ∈ ["10.0.0.1"; "10.0.0.2"; "10.0.0.1"; "10.0.0.2"] → a ∈ live q).
Proof.
  split; [lia|]. split; [simpl; lia|].
  apply (no_duplicate_before_first_take (fresh_mem 3) 3
           ["10.0.0.1"; "10.0.0.2"; "10.0.0.1"; "10.0.0.2"]);
    [lia|simpl; lia].
Defined.

(** ** The resolution function and the threads *)

(** X8.  What [reverse_ip] returns and whom it asks.  The result is
    [NULL] exactly for a [NULL] pointer, the empty string, or a string
    that neither parser accepts, and then no lookup is made.  Otherwise
    exactly one lookup is made, for the parsed address, and the result is
    the host name when the status is 0 and the resolver's message when it
    is not.  A string that the IPv4 parser accepts is never given to the
    IPv6 parser. *)
Theorem reverse_ip_outcome (env : Netdb) (str : option string) :
  ((reverse_ip env str).1 = None ↔
     str = None ∨ str = Some "" ∨ ∃ s, str = Some s ∧ parsed env s = None) ∧
  ((reverse_ip env str).1 = None → lookups (reverse_ip env str).2 = []) ∧
  (∀ s a length,
     str = Some s → s ≠ "" → parsed env s = Some (a, length) →
     lookups (reverse_ip env str).2 = [a] ∧
     (reverse_ip env str).1 =
       Some (if (getnameinfo env a length (NI_NAMEREQD env)).1 =? 0
             then (getnameinfo env a length (NI_NAMEREQD env)).2
             else gai_strerror env (getnameinfo env a length (NI_NAMEREQD env)).1)) ∧
  (∀ s, str = Some s → (inet_pton env AF_INET s).1 = 1 →
        EvInetPton AF_INET6 s ∉ (reverse_ip env str).2).
Proof.
  assert (∀ s, lookups (parse_attempts env s) = []) as Hpa
    by (intros s; unfold parse_attempts;
        by destruct (1 =? (inet_pton env AF_INET s).1)).
  destruct str as [s|].
  2:{ split; [|split; [|split]]; try done.
      split; intros _; [by left|done]. }
  destruct (decide (s = "")) as [->|Hs].
  { split; [|split; [|split]].
    - split; intros _; [by right; left|done].
    - done.
    - by intros s a length [= <-].
    - intros s _ _. apply not_elem_of_nil. }
  rewrite reverse_ip_nonempty by done.
  destruct (parsed env s) as [[a length]|] eqn:Hp.
  - rewrite reverse_host_eq. cbn [fst snd]. split; [|split; [|split]].
    + split; [done|]. intros [?|[?|(s' & ? & ?)]]; simplify_eq.
    + done.
    + intros s' a' length' [= <-] _ Hp'. rewrite Hp in Hp'.
      injection Hp' as <- <-.
      unfold lookups at 1. rewrite omap_app. fold (lookups (parse_attempts env s)).
      by rewrite Hpa.
    + intros s' [= <-] H4. unfold parse_attempts. rewrite H4. simpl.
      intros Hin. repeat (apply elem_of_cons in Hin as [Hin|Hin]; [done|]).
      by apply not_elem_of_nil in Hin.
  - cbn [fst snd]. split; [|split; [|split]].
    + split; [|done]. intros _. right. right. by exists s.
    + intros _. apply Hpa.
    + intros s' a' length' [= <-] _ Hp'. congruence.
    + intros s' [= <-] H4. unfold parsed in Hp. by rewrite H4 in Hp.
Qed.

Lemma reverse_ip_outcome_witness :
  lookups (reverse_ip stub_netdb (Some "93.184.216.34")).2
    = [mkSockaddr AF_INET [93; 184; 216; 34]] ∧
  (reverse_ip stub_netdb (Some "93.184.216.34")).1 = Some "example.com" ∧
  EvInetPton AF_INET6 "93.184.216.34"
    ∉ (reverse_ip stub_netdb (Some "93.184.216.34")).2.
Proof.
  destruct (reverse_ip_outcome stub_netdb (Some "93.184.216.34"))
    as (_ & _ & Hparsed & Hv4).
  destruct (Hparsed "93.184.216.34" (mkSockaddr AF_INET [93; 184; 216; 34]) 16)
    as [Hlookups Hhost]; [reflexivity|discriminate|reflexivity|].
  split; [exact Hlookups|]. split; [exact Hhost|].
  apply (Hv4 "93.184.216.34"); reflexivity.
Defined.

(** X9.  One turn of the worker.  With [active_gdns] set and no other
    thread acting in between, a waiting worker takes the oldest live
    address, calls [reverse_ip] on it and, if the result is not [NULL],
    passes the address and the result to [ht_insert_hostname]; it then
    signals [not_full] and waits again, with the other entries still live
    in their order. *)
Theorem worker_turn (env : Netdb) (s : GDns) (oldest : string) (rest : list string) :
  queue_inv (gdns_queue s) →
  worker s = Waiting → mutex s = false → active_gdns s = true →
  live (gdns_queue s) = oldest :: rest →
  ∃ s', run [AWorker env; AWorker env; AWorker env] s = Some s' ∧
        worker s' = Waiting ∧ mutex s' = false ∧ active_gdns s' = true ∧
        live (gdns_queue s') = rest ∧
        trace s' = trace s ++ (reverse_ip env (Some oldest)).2 ++
                   match (reverse_ip env (Some oldest)).1 with
                   | Some host => [EvHtInsertHostname (Some oldest) host]
                   | None => []
                   end ++ [EvCondSignal not_full].
Proof.
  intros Hq Hw Hm Ha Hlive.
  assert (gqueue_empty (gdns_queue s) = false) as Hempty.
  { destruct (gqueue_empty (gdns_queue s)) eqn:He; [|done].
    unfold gqueue_empty in He. apply Z.eqb_eq in He.
    rewrite live_empty in Hlive by lia. done. }
  destruct (live_dequeue _ Hq Hempty) as [Hp Hl].
  rewrite Hlive in Hl. injection Hl as Holdest Hrest.
  destruct (gqueue_dequeue (gdns_queue s)) as [ip q1] eqn:Hd.
  cbn [fst snd] in *. subst ip.
  set (s1 := {| gdns_queue := q1; active_gdns := active_gdns s; mutex := false;
                worker := Resolving (Some (q_head (gdns_queue s)));
                trace := trace s |}).
  assert (dns_worker_step env s = Some s1) as Hstep1
    by (unfold dns_worker_step; by rewrite Hw, Hm, Hempty, Hd).
  cbn [run step]. rewrite Hstep1. cbn [mbind option_bind].
  rewrite (worker_resolve env s1 (Some (q_head (gdns_queue s))) eq_refl).
  subst s1.
  cbn [mbind option_bind gdns_queue deref fmap option_fmap option_map
       active_gdns mutex trace].
  rewrite <- Holdest.
  unfold dns_worker_step.
  cbn [worker mutex active_gdns gdns_queue trace deref fmap option_fmap option_map].
  rewrite Ha, <- Holdest. cbn [negb mbind option_bind].
  eexists. split; [reflexivity|].
  cbn [worker mutex active_gdns gdns_queue trace].
  split_and!; try done. by rewrite <- app_assoc.
Qed.

Lemma worker_turn_witness :
  let s := {| gdns_queue := wrapped_queue; active_gdns := true; mutex := false;
              worker := Waiting; trace := [] |} in
  queue_inv (gdns_queue s) ∧ live (gdns_queue s) = ["10.0.0.2"] ∧
  ∃ s', run [AWorker stub_netdb; AWorker stub_netdb; AWorker stub_netdb] s = Some s' ∧
        worker s' = Waiting ∧ mutex s' = false ∧ active_gdns s' = true ∧
        live (gdns_queue s') = [] ∧
        trace s' = [] ++ (reverse_ip stub_netdb (Some "10.0.0.2")).2 ++
                   match (reverse_ip stub_netdb (Some "10.0.0.2")).1 with
                   | Some host => [EvHtInsertHostname (Some "10.0.0.2") host]
                   | None => []
                   end ++ [EvCondSignal not_full].
Proof.
  intros s. pose proof wrapped_queue_inv as Hq.
  split; [exact Hq|]. split; [reflexivity|].
  apply (worker_turn stub_netdb s "10.0.0.2" []); try reflexivity. exact Hq.
Defined.

Lemma gqueue_empty_live (q : GDnsQueue) :
  queue_inv q → (gqueue_empty q = true ↔ live q = []).
Proof.
  intros (_ & _ & _ & _ & [Hs0 Hs1] & _).
  unfold gqueue_empty. rewrite Z.eqb_eq. split.
  - intros H0. apply live_empty. lia.
  - intros Hnil. apply (f_equal length) in Hnil.
    unfold live in Hnil. rewrite length_fmap, length_seqZ in Hnil. simpl in Hnil. lia.
Qed.

Lemma step_inv (a : action) (s s' : GDns) :
  gdns_inv s → step a s = Some s' → gdns_inv s'.
Proof.
  intros (Hq & Hptr & Hmx) Hstep. unfold gdns_inv, worker_pointer_valid in *.
  destruct a as [addr|b|env]; simpl in Hstep.
  - unfold dns_resolver in Hstep. destruct (mutex s) eqn:Hm; [done|].
    pose proof (queue_inv_submit _ addr Hq) as Hq1.
    assert (q_capacity (dns_resolver_locked (gdns_queue s) addr).1
            = q_capacity (gdns_queue s)) as Hcap.
    { destruct (dns_resolver_locked_cases (gdns_queue s) addr) as [->|[_ ->]];
        [done|]. apply (apply_op_frame _ (OpEnqueue addr)). }
    destruct (dns_resolver_locked _ _) as [q admitted].
    injection Hstep as <-. simpl in *. by rewrite Hcap.
  - injection Hstep as <-. done.
  - unfold dns_worker_step in Hstep. destruct (worker s) eqn:Hw.
    + destruct (mutex s) eqn:Hm; [done|].
      destruct (gqueue_empty (gdns_queue s)) eqn:Hempty; [done|].
      destruct (live_dequeue _ Hq Hempty) as [Hp _].
      pose proof (queue_inv_dequeue _ Hq) as Hq1.
      destruct (apply_op_frame (gdns_queue s) OpDequeue) as [Hcap _].
      simpl in Hcap.
      destruct (gqueue_dequeue _) as [ip q1]. injection Hstep as <-.
      simpl in *. subst ip. split_and!; try done.
      exists (q_head (gdns_queue s)). split; [done|]. rewrite Hcap.
      by destruct Hq as (_ & _ & ? & _).
    + destruct (reverse_ip _ _) as [host calls]. injection Hstep as <-.
      simpl. split_and!; try done. rewrite Hmx. done.
    + destruct (mutex s) eqn:Hm; [done|].
      destruct (active_gdns s); simpl in Hstep; injection Hstep as <-; simpl; done.
    + done.
Qed.

Lemma run_inv (sched : list action) (s s' : GDns) :
  gdns_inv s → run sched s = Some s' → gdns_inv s'.
Proof.
  revert s. induction sched as [|a sched IH]; intros s Hinv; simpl.
  - by intros [= <-].
  - destruct (step a s) as [s1|] eqn:Hstep; simpl; [|done].
    apply IH. by apply (step_inv a s).
Qed.

Lemma started_reachable (n : nat) (sched : list action) (s : GDns) :
  (0 < n)%nat → run sched (started n) = Some s → gdns_reachable s.
Proof.
  intros Hn Hrun.
  exists (Z.of_nat n), pthread_ok, (fresh_mem n),
    (gqueue_init (fresh_mem n) (Z.of_nat n)), (started n), sched.
  split; [lia|]. split; [simpl; rewrite length_replicate; lia|]. done.
Qed.

Lemma gdns_reachable_inv (s : GDns) : gdns_reachable s → gdns_inv s.
Proof.
  intros (QUEUE_SIZE & pt & mem & q & s0 & sched & Hc & Hlen & Hinit & Hcreate & Hrun).
  apply (run_inv sched s0); [|done].
  assert (q = gqueue_init mem QUEUE_SIZE) as ->.
  { unfold gdns_init, FATAL in Hinit.
    repeat (destruct (truthy _); [done|]). by injection Hinit as <-. }
  unfold gdns_thread_create, FATAL in Hcreate.
  destruct (truthy _); [done|]. injection Hcreate as <-.
  unfold gdns_inv, worker_pointer_valid. simpl.
  split; [by apply queue_inv_init|]. done.
Qed.

(** X10.  In every state that the program can reach the queue satisfies
    its invariant, the pointer that the worker holds while it resolves or
    publishes is a slot of the queue and never [NULL], and the mutex is
    found locked between two critical sections exactly when the worker
    has left its loop. *)
Theorem reachable_states_invariant (s : GDns) :
  gdns_reachable s →
  queue_inv (gdns_queue s) ∧
  (∀ ip, worker s = Resolving ip ∨ (∃ host, worker s = Publishing ip host) →
         ∃ p, ip = Some p ∧ 0 ≤ p < q_capacity (gdns_queue s)) ∧
  (mutex s = true ↔ worker s = Stopped).
Proof.
  intros (Hq & Hptr & Hmx)%gdns_reachable_inv.
  split; [done|]. split; [|done].
  unfold worker_pointer_valid in Hptr.
  intros ip [Hw|[host Hw]]; by rewrite Hw in Hptr.
Qed.

Lemma reachable_states_invariant_witness :
  gdns_reachable
    {| gdns_queue := mkGDnsQueue 1 1 1 2 ["10.0.0.1"; "10.0.0.2"];
       active_gdns := true; mutex := false;
       worker := Resolving (Some 0);
       trace := [EvCondBroadcast not_empty; EvCondBroadcast not_empty] |} ∧
  ∃ p, Some 0 = Some p ∧ 0 ≤ p < 2.
Proof.
  assert (gdns_reachable
            {| gdns_queue := mkGDnsQueue 1 1 1 2 ["10.0.0.1"; "10.0.0.2"];
               active_gdns := true; mutex := false;
               worker := Resolving (Some 0);
               trace := [EvCondBroadcast not_empty; EvCondBroadcast not_empty] |})
    as Hr by (apply (started_reachable 2 fill_and_take); [lia|reflexivity]).
  split; [exact Hr|].
  destruct (reachable_states_invariant _ Hr) as (_ & Hptr & _).
  apply (Hptr (Some 0)). left. reflexivity.
Defined.

(** X11.  Who can move.  In a reachable state a call of [dns_resolver]
    gets the mutex unless the worker has left its loop: the worker breaks
    out without unlocking, so every later call stays blocked.  The worker
    itself can move unless it has left its loop or waits on a queue with
    no live entry. *)
Theorem who_can_move (s : GDns) :
  gdns_reachable s →
  (∀ addr, dns_resolver addr s = None ↔ worker s = Stopped) ∧
  (∀ env, dns_worker_step env s = None ↔
          worker s = Stopped ∨ (worker s = Waiting ∧ live (gdns_queue s) = [])).
Proof.
  intros (Hq & _ & Hmx)%gdns_reachable_inv.
  split.
  - intros addr. rewrite <- Hmx. unfold dns_resolver.
    destruct (mutex s); [done|]. by destruct (dns_resolver_locked _ _).
  - intros env.
    assert (worker s ≠ Stopped → mutex s = false) as Hfree.
    { intros Hns. destruct (mutex s); [|done]. by destruct Hns, (proj1 Hmx). }
    unfold dns_worker_step. destruct (worker s) eqn:Hw.
    + rewrite Hfree by done.
      rewrite <- (gqueue_empty_live _ Hq).
      destruct (gqueue_empty (gdns_queue s)).
      * split; [by right|done].
      * destruct (gqueue_dequeue _). split; [done|]. by intros [?|[_ ?]].
    + destruct (reverse_ip _ _). split; [done|]. by intros [?|[? _]].
    + rewrite Hfree by done.
      destruct (active_gdns s); simpl; (split; [done|]); by intros [?|[? _]].
    + split; [by left|done].
Qed.

Lemma who_can_move_witness :
  let s := {| gdns_queue := mkGDnsQueue 1 0 0 2 ["93.184.216.34"; ""];
              active_gdns := false; mutex := true; worker := Stopped;
              trace := [EvCondBroadcast not_empty;
                        EvInetPton AF_INET "93.184.216.34";
                        EvGetnameinfo (mkSockaddr AF_INET [93; 184; 216; 34]) 16 8] |} in
  gdns_reachable s ∧
  (∀ addr, dns_resolver addr s = None ↔ worker s = Stopped) ∧
  (∀ env, dns_worker_step env s = None ↔
          worker s = Stopped ∨ (worker s = Waiting ∧ live (gdns_queue s) = [])).
Proof.
  intros s.
  assert (gdns_reachable s) as Hr.
  { apply (started_reachable 2
             [ADnsResolver "93.184.216.34"; AWorker stub_netdb;
              ASetActive false; AWorker stub_netdb; AWorker stub_netdb]);
      [lia|reflexivity]. }
  split; [exact Hr|]. exact (who_can_move s Hr).
Defined.

(** X12.  What [dns_resolver] does.  A call that gets the mutex always
    returns.  When the queue is not full and the address is in none of the
    first [size] slots, it enqueues the address and broadcasts
    [not_empty] once; otherwise it changes nothing at all.  It never
    touches [active_gdns], the worker or the hostname store. *)
Theorem dns_resolver_effect (s : GDns) (addr : string) :
  mutex s = false →
  ∃ s', dns_resolver addr s = Some s' ∧
        worker s' = worker s ∧ active_gdns s' = active_gdns s ∧
        mutex s' = false ∧ puts (trace s') = puts (trace s) ∧
        ((q_size (gdns_queue s) ≠ q_capacity (gdns_queue s) ∧
          addr ∉ scanned (gdns_queue s)) →
         gdns_queue s' = (gqueue_enqueue (gdns_queue s) addr).2 ∧
         trace s' = trace s ++ [EvCondBroadcast not_empty]) ∧
        ((q_size (gdns_queue s) = q_capacity (gdns_queue s) ∨
          addr ∈ scanned (gdns_queue s)) →
         s' = s).
Proof.
  intros Hm. unfold dns_resolver. rewrite Hm.
  destruct (dns_resolver_locked (gdns_queue s) addr) as [q admitted] eqn:Hr.
  eexists. split; [reflexivity|]. simpl.
  split; [done|]. split; [done|]. split; [done|]. split.
  { rewrite puts_app. destruct admitted; simpl; by rewrite app_nil_r. }
  split.
  - intros [Hroom Hnew].
    rewrite dns_resolver_locked_admits in Hr by done. by injection Hr as <- <-.
  - intros Hrej.
    rewrite dns_resolver_locked_rejects in Hr by done. injection Hr as <- <-.
    rewrite app_nil_r. destruct s. simpl in *. by subst.
Qed.

Lemma dns_resolver_effect_witness :
  mutex (started 2) = false ∧
  ∃ s', dns_resolver "10.0.0.1" (started 2) = Some s' ∧
        worker s' = Waiting ∧ active_gdns s' = true ∧
        mutex s' = false ∧ puts (trace s') = [] ∧
        ((q_size (gdns_queue (started 2)) ≠ q_capacity (gdns_queue (started 2)) ∧
          "10.0.0.1" ∉ scanned (gdns_queue (started 2))) →
         gdns_queue s' = (gqueue_enqueue (gdns_queue (started 2)) "10.0.0.1").2 ∧
         trace s' = trace (started 2) ++ [EvCondBroadcast not_empty]) ∧
        ((q_size (gdns_queue (started 2)) = q_capacity (gdns_queue (started 2)) ∨
          "10.0.0.1" ∈ scanned (gdns_queue (started 2))) →
         s' = started 2).
Proof.
  split; [reflexivity|].
  apply (dns_resolver_effect (started 2) "10.0.0.1"). reflexivity.
Defined.

(** * Properties of tcbtdb.c *)

(** ** The list search and [ins_igsl] *)

Lemma is_value_in_tclist_loop_spec (l : list Z) (value : Z) (fuel : nat) (i : Z) :
  0 ≤ i → Z.of_nat fuel = Z.of_nat (length l) - i →
  is_value_in_tclist_loop fuel l value i =
    if bool_decide (value ∈ drop (Z.to_nat i) l) then 1 else 0.
Proof.
  revert i. induction fuel as [|fuel IH]; intros i Hi Hfuel.
  - cbn [is_value_in_tclist_loop]. rewrite drop_ge by lia.
    rewrite bool_decide_eq_false_2; [done|]. apply not_elem_of_nil.
  - cbn [is_value_in_tclist_loop].
    destruct (Z.ltb_spec i (Z.of_nat (length l))); [|lia].
    destruct (lookup_lt_is_Some_2 l (Z.to_nat i)) as [val Hval]; [lia|].
    rewrite Hval. rewrite (drop_S _ _ _ Hval).
    unfold truthy, find_int_key_in_list.
    destruct (Z.eqb_spec value val) as [->|Hne]; simpl.
    + rewrite bool_decide_eq_true_2; [done|]. apply list_elem_of_here.
    + rewrite IH by lia.
      replace (Z.to_nat (i + 1)) with (S (Z.to_nat i)) by lia.
      apply (f_equal (λ b : bool, if b then 1 else 0)).
      apply bool_decide_ext. rewrite elem_of_cons. tauto.
Qed.

Lemma is_value_in_tclist_spec (l : list Z) (value : Z) :
  is_value_in_tclist (Some l) value = if bool_decide (value ∈ l) then 1 else 0.
Proof.
  unfold is_value_in_tclist.
  rewrite is_value_in_tclist_loop_spec by lia. done.
Qed.

(** X13.  [is_value_in_tclist] returns 1 exactly when the list is not
    [NULL] and holds the value, and 0 otherwise: for a [NULL] list, an
    empty list, and a list without the value. *)
Theorem is_value_in_tclist_membership (tclist : option (list Z)) (value : Z) :
  (is_value_in_tclist tclist value = 1 ↔ ∃ l, tclist = Some l ∧ value ∈ l) ∧
  (is_value_in_tclist tclist value = 0 ↔
     tclist = None ∨ ∃ l, tclist = Some l ∧ value ∉ l).
Proof.
  destruct tclist as [l|].
  - rewrite is_value_in_tclist_spec. case_bool_decide as Hin; split; split.
    + intros _. by exists l.
    + done.
    + done.
    + intros [?|(l' & [= <-] & Hnot)]; done.
    + done.
    + intros (l' & [= <-] & Hin'). done.
    + intros _. right. by exists l.
    + done.
  - simpl. split; split; try done.
    + intros (l & ? & _). done.
    + intros _. by left.
Qed.

Lemma ins_igsl_cases (stored : bool) (bdb : gmap Z (list Z)) (key value : Z) :
  ins_igsl stored (Some bdb) key value =
    if bool_decide (value ∈ default [] (bdb !! key)) then (-1, Some bdb)
    else if stored then
      (0, Some (<[key := default [] (bdb !! key) ++ [value]]> bdb))
    else (-1, Some bdb).
Proof.
  unfold ins_igsl, tcbdbget4, tcbdbputdup.
  destruct (bdb !! key) as [l|] eqn:Hl.
  - rewrite is_value_in_tclist_spec. simpl.
    case_bool_decide; simpl; [done|]. by destruct stored.
  - rewrite bool_decide_eq_false_2 by apply not_elem_of_nil.
    by destruct stored.
Qed.

(** X14.  What [ins_igsl] returns.  On a [NULL] handle it returns -1.
    Otherwise it returns 0 exactly when the value was not yet recorded
    under the key and the library stored it; the new record then comes
    behind the records of the key.  In every other case it returns -1 and
    the database is as it was; in particular a value already recorded
    under the key is not stored again. *)
Theorem ins_igsl_result (stored : bool) (bdb : gmap Z (list Z)) (key value : Z) :
  ins_igsl stored None key value = (-1, None) ∧
  ((ins_igsl stored (Some bdb) key value).1 = 0 ↔
     stored = true ∧ value ∉ default [] (bdb !! key)) ∧
  ((ins_igsl stored (Some bdb) key value).1 = 0 →
   (ins_igsl stored (Some bdb) key value).2
     = Some (<[key := default [] (bdb !! key) ++ [value]]> bdb)) ∧
  ((ins_igsl stored (Some bdb) key value).1 ≠ 0 →
   ins_igsl stored (Some bdb) key value = (-1, Some bdb)).
Proof.
  split; [done|]. rewrite ins_igsl_cases.
  case_bool_decide as Hin; [|destruct stored]; simpl.
  - split_and!; try done. split; [done|]. by intros [_ ?].
  - split_and!; try done.
  - split_and!; try done. split; [done|]. by intros [? _].
Qed.

(** X15.  Insert, then look up.  After a successful [ins_igsl] the value
    is found by [is_value_in_tclist] in the records of its key, the
    records of the other keys are untouched, and the same call made again
    returns -1 and changes nothing, whether or not the library could
    store. *)
Theorem ins_igsl_then_lookup (stored stored' : bool) (bdb bdb' : gmap Z (list Z))
    (key value : Z) :
  ins_igsl stored (Some bdb) key value = (0, Some bdb') →
  is_value_in_tclist (tcbdbget4 bdb' key) value = 1 ∧
  (∀ key', key' ≠ key → tcbdbget4 bdb' key' = tcbdbget4 bdb key') ∧
  ins_igsl stored' (Some bdb') key value = (-1, Some bdb').
Proof.
  rewrite ins_igsl_cases.
  case_bool_decide as Hin; [done|]. destruct stored; [|done].
  intros [= <-]. unfold tcbdbget4.
  rewrite lookup_insert_eq. split; [|split].
  - rewrite is_value_in_tclist_spec, bool_decide_eq_true_2; [done|].
    apply elem_of_app. right. apply list_elem_of_here.
  - intros key' Hne. by rewrite lookup_insert_ne.
  - rewrite ins_igsl_cases, lookup_insert_eq. simpl.
    rewrite bool_decide_eq_true_2; [done|].
    apply elem_of_app. right. apply list_elem_of_here.
Qed.

Lemma ins_igsl_then_lookup_witness :
  ins_igsl true (Some stub_bdb) 7 30 = (0, Some {[ 7 := [10; 20; 30] ]}) ∧
  is_value_in_tclist (tcbdbget4 {[ 7 := [10; 20; 30] ]} 7) 30 = 1 ∧
  (∀ key', key' ≠ 7 →
           tcbdbget4 {[ 7 := [10; 20; 30] ]} key' = tcbdbget4 stub_bdb key') ∧
  ins_igsl true (Some {[ 7 := [10; 20; 30] ]}) 7 30
    = (-1, Some {[ 7 := [10; 20; 30] ]}).
Proof.
  assert (ins_igsl true (Some stub_bdb) 7 30 = (0, Some {[ 7 := [10; 20; 30] ]}))
    as Hins.
  { vm_compute. reflexivity. }
  split; [exact Hins|].
  exact (ins_igsl_then_lookup true true stub_bdb {[ 7 := [10; 20; 30] ]} 7 30 Hins).
Defined.

(** X16.  [ins_igsl] never records a value twice under a key: if no key
    of the database has a repeated value, none has after the call,
    whatever the call returns. *)
Theorem ins_igsl_keeps_values_distinct (stored : bool) (bdb bdb' : gmap Z (list Z))
    (key value ret : Z) :
  (∀ k l, bdb !! k = Some l → NoDup l) →
  ins_igsl stored (Some bdb) key value = (ret, Some bdb') →
  ∀ k l, bdb' !! k = Some l → NoDup l.
Proof.
  intros Hnd. rewrite ins_igsl_cases.
  case_bool_decide as Hin; [by intros [= _ <-]|].
  destruct stored; [|by intros [= _ <-]].
  intros [= _ <-] k l. destruct (decide (k = key)) as [->|Hne].
  - rewrite lookup_insert_eq. intros [= <-].
    apply NoDup_app. split; [|split].
    + destruct (bdb !! key) as [l0|] eqn:Hl0; simpl; [by eapply Hnd|].
      apply NoDup_nil_2.
    + intros x Hx ->%list_elem_of_singleton. done.
    + apply NoDup_singleton.
  - rewrite lookup_insert_ne by done. apply Hnd.
Qed.

Lemma ins_igsl_keeps_values_distinct_witness :
  (∀ k l, stub_bdb !! k = Some l → NoDup l) ∧
  ins_igsl true (Some stub_bdb) 7 30 = (0, Some {[ 7 := [10; 20; 30] ]}) ∧
  ∀ k l, ({[ 7 := [10; 20; 30] ]} : gmap Z (list Z)) !! k = Some l → NoDup l.
Proof.
  assert (∀ k l, stub_bdb !! k = Some l → NoDup l) as Hnd.
  { intros k l. unfold stub_bdb. intros [_ <-]%lookup_singleton_Some.
    apply (bool_decide_unpack _). vm_compute. exact I. }
  assert (ins_igsl true (Some stub_bdb) 7 30 = (0, Some {[ 7 := [10; 20; 30] ]}))
    as Hins.
  { vm_compute. reflexivity. }
  split; [exact Hnd|]. split; [exact Hins|].
  exact (ins_igsl_keeps_values_distinct true stub_bdb {[ 7 := [10; 20; 30] ]}
           7 30 0 Hnd Hins).
Defined.

(** ** The parameter string *)

Section DbParamsProperties.
Variable DB_PARAMS : Z.
Variables TC_LCNUM TC_NCNUM TC_LMEMB TC_NMEMB TC_BNUM TC_BZ2 TC_ZLIB : Z.
Variable format : string → list fmt_arg → option (list ascii).

Lemma set_dbparam_fits (params : list ascii) (len : Z) (fmt : string)
    (args : list fmt_arg) :
  0 ≤ len ≤ DB_PARAMS →
  0 ≤ (set_dbparam DB_PARAMS format params len fmt args).1 ∧
  len + (set_dbparam DB_PARAMS format params len fmt args).1 ≤ DB_PARAMS ∧
  (Z.of_nat (length params) < DB_PARAMS →
   Z.of_nat (length (set_dbparam DB_PARAMS format params len fmt args).2) < DB_PARAMS).
Proof.
  intros Hlen. unfold set_dbparam, vsnprintf.
  destruct (format fmt args) as [text|]; cbn [fst snd].
  - rewrite Z.geb_leb.
    destruct (Z.ltb_spec (Z.of_nat (length text)) 0); [lia|].
    split; [|split].
    + destruct (Z.leb_spec (DB_PARAMS - len) (Z.of_nat (length text))); lia.
    + destruct (Z.leb_spec (DB_PARAMS - len) (Z.of_nat (length text))); lia.
    + intros Hfit.
      destruct (Z.leb_spec (DB_PARAMS - len) 0); cbn [orb]; [done|].
      destruct (Z.ltb_spec (Z.of_nat (length params)) len); [done|].
      rewrite length_app, !length_take. lia.
  - simpl. split; [lia|]. split; [lia|done].
Qed.

Lemma put_dbparam_fits (st : Z * list ascii) (fmt : string) (args : list fmt_arg) :
  0 ≤ st.1 ≤ DB_PARAMS ∧ Z.of_nat (length st.2) < DB_PARAMS →
  0 ≤ (put_dbparam DB_PARAMS format st fmt args).1 ≤ DB_PARAMS ∧
  Z.of_nat (length (put_dbparam DB_PARAMS format st fmt args).2) < DB_PARAMS.
Proof.
  intros [Hlen Hfit]. unfold put_dbparam.
  destruct (set_dbparam_fits st.2 st.1 fmt args Hlen) as (Hn & Hsum & Hbuf).
  destruct (set_dbparam _ _ _ _ _ _) as [n params]. cbn [fst snd] in *.
  split; [lia|by apply Hbuf].
Qed.

Lemma tc_db_get_params_fold (conf : GConf) (params : list ascii) (path : string) :
  tc_db_get_params DB_PARAMS TC_LCNUM TC_NCNUM TC_LMEMB TC_NMEMB TC_BNUM
      TC_BZ2 TC_ZLIB format conf params path
  = (foldl (λ st call, put_dbparam DB_PARAMS format st call.1 call.2) (0, params)
       (db_param_calls TC_LCNUM TC_NCNUM TC_LMEMB TC_NMEMB TC_BNUM
          TC_BZ2 TC_ZLIB conf path)).2.
Proof.
  unfold tc_db_get_params, db_param_calls.
  destruct (xmmap conf >? 0), (compression conf =? TC_BZ2),
    (compression conf =? TC_ZLIB), (negb (truthy (load_from_disk conf)));
    reflexivity.
Qed.

(** X17.  [set_dbparam] stays inside the buffer.  Called with an offset
    between 0 and [DB_PARAMS], it returns a count that is not negative and
    that, added to the offset, does not exceed [DB_PARAMS], whether the
    text fits, is cut, or cannot be produced; and a string that fitted
    the [DB_PARAMS] bytes of the buffer with its terminator still fits
    afterwards. *)
Theorem set_dbparam_within_buffer (params : list ascii) (len : Z) (fmt : string)
    (args : list fmt_arg) :
  0 ≤ len ≤ DB_PARAMS →
  0 ≤ (set_dbparam DB_PARAMS format params len fmt args).1 ∧
  len + (set_dbparam DB_PARAMS format params len fmt args).1 ≤ DB_PARAMS ∧
  (Z.of_nat (length params) < DB_PARAMS →
   Z.of_nat (length (set_dbparam DB_PARAMS format params len fmt args).2) < DB_PARAMS).
Proof. apply set_dbparam_fits. Qed.

(** X18.  Whatever the configuration, the path and the formatter, the
    string that [tc_db_get_params] leaves in a buffer of [DB_PARAMS]
    bytes fits the buffer with its terminator, provided the string found
    there did. *)
Theorem tc_db_get_params_within_buffer (conf : GConf) (params : list ascii)
    (path : string) :
  Z.of_nat (length params) < DB_PARAMS →
  Z.of_nat (length (tc_db_get_params DB_PARAMS TC_LCNUM TC_NCNUM TC_LMEMB
                      TC_NMEMB TC_BNUM TC_BZ2 TC_ZLIB format conf params path))
    < DB_PARAMS.
Proof.
  intros Hfit. rewrite tc_db_get_params_fold.
  assert (0 ≤ (0, params).1 ≤ DB_PARAMS ∧
          Z.of_nat (length (0, params).2) < DB_PARAMS) as Hinit
    by (simpl; lia).
  revert Hinit. generalize (0, params).
  induction (db_param_calls _ _ _ _ _ _ _ _ _) as [|call calls IH];
    intros st Hst; simpl.
  - by destruct Hst.
  - apply IH. by apply put_dbparam_fits.
Qed.

Lemma put_dbparam_first (params text : list ascii) (fmt : string) (args : list fmt_arg) :
  0 < DB_PARAMS → format fmt args = Some text →
  put_dbparam DB_PARAMS format (0, params) fmt args
  = (Z.min DB_PARAMS (Z.of_nat (length text)), take (Z.to_nat (DB_PARAMS - 1)) text).
Proof.
  intros Hd Hfmt. unfold put_dbparam, set_dbparam, vsnprintf. cbn [fst snd].
  rewrite Hfmt, Z.geb_leb, Z.sub_0_r.
  destruct (Z.leb_spec DB_PARAMS 0); [lia|].
  destruct (Z.ltb_spec (Z.of_nat (length params)) 0); [lia|].
  destruct (Z.ltb_spec (Z.of_nat (length text)) 0); [lia|].
  cbn [orb]. rewrite take_0. cbn [app]. f_equal.
  destruct (Z.leb_spec DB_PARAMS (Z.of_nat (length text))); lia.
Qed.

Lemma put_dbparam_next (total text : list ascii) (fmt : string) (args : list fmt_arg) :
  0 < DB_PARAMS → format fmt args = Some text →
  put_dbparam DB_PARAMS format
    (Z.min DB_PARAMS (Z.of_nat (length total)),
     take (Z.to_nat (DB_PARAMS - 1)) total) fmt args
  = (Z.min DB_PARAMS (Z.of_nat (length (total ++ text))),
     take (Z.to_nat (DB_PARAMS - 1)) (total ++ text)).
Proof.
  intros Hd Hfmt. unfold put_dbparam, set_dbparam, vsnprintf. cbn [fst snd].
  rewrite Hfmt, Z.geb_leb, length_app.
  destruct (Z.ltb_spec (Z.of_nat (length text)) 0); [lia|].
  destruct (Z.le_gt_cases DB_PARAMS (Z.of_nat (length total))) as [Hcut|Hroom].
  - rewrite Z.min_l by lia. rewrite Z.sub_diag. cbn [Z.leb Z.compare orb].
    rewrite Z.min_l by lia.
    destruct (Z.leb_spec 0 (Z.of_nat (length text))); [|lia].
    f_equal; [lia|]. rewrite take_app_le by lia. done.
  - rewrite (Z.min_r _ (Z.of_nat (length total))) by lia.
    rewrite (take_ge total) by lia.
    destruct (Z.leb_spec (DB_PARAMS - Z.of_nat (length total)) 0); [lia|].
    destruct (Z.ltb_spec (Z.of_nat (length total)) (Z.of_nat (length total))); [lia|].
    cbn [orb]. rewrite Nat2Z.id, firstn_all.
    f_equal.
    + destruct (Z.leb_spec (DB_PARAMS - Z.of_nat (length total))
                           (Z.of_nat (length text))); lia.
    + rewrite take_app_ge by lia. do 2 f_equal. lia.
Qed.

Lemma foldl_put_dbparam_texts (calls : list (string * list fmt_arg))
    (total rest : list ascii) :
  0 < DB_PARAMS → texts format calls = Some rest →
  foldl (λ st call, put_dbparam DB_PARAMS format st call.1 call.2)
    (Z.min DB_PARAMS (Z.of_nat (length total)),
     take (Z.to_nat (DB_PARAMS - 1)) total) calls
  = (Z.min DB_PARAMS (Z.of_nat (length (total ++ rest))),
     take (Z.to_nat (DB_PARAMS - 1)) (total ++ rest)).
Proof.
  intros Hd. revert total rest.
  induction calls as [|[fmt args] calls IH]; intros total rest; simpl.
  - intros [= <-]. by rewrite app_nil_r.
  - destruct (format fmt args) as [text|] eqn:Hfmt; simpl; [|done].
    destruct (texts format calls) as [rest'|] eqn:Hrest; simpl; [|done].
    intros [= <-]. rewrite (put_dbparam_next _ _ _ _ Hd Hfmt).
    rewrite (IH _ rest' eq_refl). by rewrite <- app_assoc.
Qed.

Lemma foldl_put_dbparam_start (calls : list (string * list fmt_arg))
    (params total : list ascii) :
  0 < DB_PARAMS → calls ≠ [] → texts format calls = Some total →
  (foldl (λ st call, put_dbparam DB_PARAMS format st call.1 call.2)
     (0, params) calls).2
  = take (Z.to_nat (DB_PARAMS - 1)) total.
Proof.
  intros Hd Hne. destruct calls as [|[fmt args] calls]; [done|]. simpl.
  destruct (format fmt args) as [text|] eqn:Hfmt; simpl; [|done].
  destruct (texts format calls) as [rest|] eqn:Hrest; simpl; [|done].
  intros [= <-]. rewrite (put_dbparam_first _ _ _ _ Hd Hfmt).
  by rewrite (foldl_put_dbparam_texts calls text rest Hd Hrest).
Qed.

(** X19.  When no call reports an output error and [DB_PARAMS] is
    positive, the string that [tc_db_get_params] leaves in the buffer is
    the concatenation of the texts of its calls, in the order of the
    calls, cut after [DB_PARAMS - 1] characters; what the buffer held
    before does not matter. *)
Theorem tc_db_get_params_truncates (conf : GConf) (params : list ascii)
    (path : string) (total : list ascii) :
  0 < DB_PARAMS →
  texts format (db_param_calls TC_LCNUM TC_NCNUM TC_LMEMB TC_NMEMB TC_BNUM
                  TC_BZ2 TC_ZLIB conf path) = Some total →
  tc_db_get_params DB_PARAMS TC_LCNUM TC_NCNUM TC_LMEMB TC_NMEMB TC_BNUM
      TC_BZ2 TC_ZLIB format conf params path
  = take (Z.to_nat (DB_PARAMS - 1)) total.
Proof.
  intros Hd Htexts. rewrite tc_db_get_params_fold.
  apply foldl_put_dbparam_start; [done| |done].
  unfold db_param_calls. cbn [app]. done.
Qed.
End DbParamsProperties.

Lemma set_dbparam_within_buffer_witness :
  0 ≤ 4 ≤ 8 ∧
  set_dbparam 8 stub_format (String.list_ascii_of_string "/tmp") 4
    "#%s=%d" [ArgString "lcnum"; ArgInt 1024]
    = (4, String.list_ascii_of_string "/tmp#lc") ∧
  0 ≤ 4 ∧ 4 + 4 ≤ 8 ∧
  (Z.of_nat (length (String.list_ascii_of_string "/tmp")) < 8 →
   Z.of_nat (length (String.list_ascii_of_string "/tmp#lc")) < 8).
Proof.
  assert (0 ≤ 4 ≤ 8) as Hlen by lia.
  split; [exact Hlen|]. split; [reflexivity|].
  exact (set_dbparam_within_buffer 8 stub_format
           (String.list_ascii_of_string "/tmp") 4
           "#%s=%d" [ArgString "lcnum"; ArgInt 1024] Hlen).
Defined.

Lemma tc_db_get_params_within_buffer_witness :
  Z.of_nat (length (String.list_ascii_of_string "old contents")) < 32 ∧
  Z.of_nat (length (tc_db_get_params 32 1024 512 128 256 32749 2 3 stub_format
                      stub_conf (String.list_ascii_of_string "old contents")
                      "/tmp/db")) < 32.
Proof.
  assert (Z.of_nat (length (String.list_ascii_of_string "old contents")) < 32)
    as Hfit by (simpl; lia).
  split; [exact Hfit|].
  exact (tc_db_get_params_within_buffer 32 1024 512 128 256 32749 2 3 stub_format
           stub_conf (String.list_ascii_of_string "old contents") "/tmp/db" Hfit).
Defined.

Lemma tc_db_get_params_truncates_witness :
  0 < 32 ∧
  texts stub_format (db_param_calls 1024 512 128 256 32749 2 3 stub_conf "/tmp/db")
    = Some (String.list_ascii_of_string
              "/tmp/db#lcnum=2048#ncnum=512#xmsiz=5#lmemb=128#nmemb=256#bnum=32749#opts=ld#mode=wc") ∧
  tc_db_get_params 32 1024 512 128 256 32749 2 3 stub_format stub_conf
      (String.list_ascii_of_string "old contents") "/tmp/db"
    = String.list_ascii_of_string "/tmp/db#lcnum=2048#ncnum=512#xm".
Proof.
  assert (0 < 32) as Hd by lia.
  assert (texts stub_format
            (db_param_calls 1024 512 128 256 32749 2 3 stub_conf "/tmp/db")
          = Some (String.list_ascii_of_string
                    "/tmp/db#lcnum=2048#ncnum=512#xmsiz=5#lmemb=128#nmemb=256#bnum=32749#opts=ld#mode=wc"))
    as Htexts by (vm_compute; reflexivity).
  split; [exact Hd|]. split; [exact Htexts|].
  exact (tc_db_get_params_truncates 32 1024 512 128 256 32749 2 3 stub_format
           stub_conf (String.list_ascii_of_string "old contents") "/tmp/db" _
           Hd Htexts).
Defined.
